(** * The indexer's data model: packed locations, file ids, entity interning

    A shallow embedding of [indexer.h] (Location, IndexedFileDb, the entity
    records and IndexedFile) and of [messages/ccls_vars.cc], with the
    properties the specification states about them. *)

From Stdlib Require Import ZArith Lia Bool Ascii Decimal DecimalString DecimalN.
From stdpp Require Import gmap strings list fin_maps.

Local Open Scope Z_scope.

(** ** Failure *)

(** An [assert] that does not hold ends the program.  The two kinds are the
    ones the specification names for the two families of assertions. *)
Inductive Fatal : Type :=
| CapacityExceeded
| InvariantViolated.

Inductive Result (A : Type) : Type :=
| Ok (a : A)
| Abort (e : Fatal).
Arguments Ok {A} a.
Arguments Abort {A} e.

#[global] Instance Result_bind : MBind Result := fun A B k r =>
  match r with
  | Ok a => k a
  | Abort e => Abort e
  end.

Definition assert_that (b : bool) (e : Fatal) : Result unit :=
  if b then Ok tt else Abort e.

(** ** Machine integers *)

Definition uint64 (v : Z) : Prop := 0 <= v < 2 ^ 64.
Definition uint32 (v : Z) : Prop := 0 <= v < 2 ^ 32.
Definition int64 (v : Z) : Prop := - 2 ^ 63 <= v < 2 ^ 63.

(** Conversion to [uint64_t], as in an assignment from any integer type. *)
Definition to_uint64 (v : Z) : Z := v mod 2 ^ 64.

(** ** Bit-field members of a 64-bit word *)

Module BitField.

(** Modelled from the spec: [bitfield.h] (BEGIN_BITFIELD_TYPE,
    ADD_BITFIELD_MEMBER) is not among the sources.  A member of [len] bits
    at [start] reads [(value >> start) & Maximum]; writing it asserts that
    the value fits ("asserts each field fits its bit width") and replaces
    exactly the member's bits of the shared word. *)
Definition Maximum (len : Z) : Z := Z.shiftl 1 len - 1.
Definition Mask (start len : Z) : Z := Z.shiftl (Maximum len) start.

Definition get (start len : Z) (value : Z) : Z :=
  Z.land (Z.shiftr value start) (Maximum len).

Definition store (start len : Z) (value v : Z) : Z :=
  Z.lor (Z.land value (to_uint64 (Z.lnot (Mask start len))))
        (to_uint64 (Z.shiftl v start)).

Definition assign (start len : Z) (value v : Z) : Result Z :=
  _ ← assert_that (v <=? Maximum len) CapacityExceeded;
  Ok (store start len value v).

End BitField.

(** ** Location *)

(** [BEGIN_BITFIELD_TYPE(Location, uint64_t)]: a Location is its 64-bit
    [wrapper.value]. *)
Abbreviation Location := Z (only parsing).

Abbreviation FileId := Z (only parsing).

Module Loc.

Definition interesting (l : Location) : Z := BitField.get 0 1 l.
Definition file_id (l : Location) : Z := BitField.get 1 29 l.
Definition line (l : Location) : Z := BitField.get 30 20 l.
Definition column (l : Location) : Z := BitField.get 50 14 l.

Definition set_interesting (l : Location) (v : Z) : Result Location :=
  BitField.assign 0 1 l v.
Definition set_file_id (l : Location) (v : Z) : Result Location :=
  BitField.assign 1 29 l v.
Definition set_line (l : Location) (v : Z) : Result Location :=
  BitField.assign 30 20 l v.
Definition set_column (l : Location) (v : Z) : Result Location :=
  BitField.assign 50 14 l v.

(** [Location(bool interesting, FileId file_id, uint32_t line,
    uint32_t column)].  The constructor does not initialise the word, so the
    four member writes start from whatever the storage holds, [raw]. *)
Definition new (raw : Z) (interesting : bool) (file_id : FileId)
    (line column : Z) : Result Location :=
  l ← set_interesting raw (Z.b2z interesting);
  l ← set_file_id l (to_uint64 file_id);
  l ← set_line l (to_uint64 line);
  set_column l (to_uint64 column).

(** [IsEqualTo]: [(wrapper.value >> 1) == (o.wrapper.value >> 1)]. *)
Definition IsEqualTo (a o : Location) : bool :=
  Z.shiftr a 1 =? Z.shiftr o 1.

(** [WithInteresting]: copy, then write the member.  A [bool] always fits,
    so the write is the plain store (see [set_interesting_bool]). *)
Definition WithInteresting (l : Location) (interesting : bool) : Location :=
  BitField.store 0 1 l (Z.b2z interesting).

(** [std::to_string] at an unsigned integer: its decimal digits. *)
Definition to_string (v : Z) : string :=
  NilEmpty.string_of_uint (N.to_uint (Z.to_N v)).

(** [ToString]: the result string is built by appending. *)
Definition ToString (l : Location) : string :=
  let result := EmptyString in
  let result := if interesting l =? 0 then result
                else result +:+ String "*"%char EmptyString in
  let result := result +:+ to_string (file_id l) in
  let result := result +:+ String ":"%char EmptyString in
  let result := result +:+ to_string (line l) in
  let result := result +:+ String ":"%char EmptyString in
  let result := result +:+ to_string (column l) in
  result.

(** Reading back.  A decimal digit extends the number read after it. *)
Definition digit_of_char (c : ascii) : option (uint -> uint) :=
  match c with
  | "0" => Some D0 | "1" => Some D1 | "2" => Some D2 | "3" => Some D3
  | "4" => Some D4 | "5" => Some D5 | "6" => Some D6 | "7" => Some D7
  | "8" => Some D8 | "9" => Some D9
  | _ => None
  end%char.

(** The longest run of digits at the head of [s], and what follows it. *)
Fixpoint read_digits (s : string) : uint * string :=
  match s with
  | EmptyString => (Nil, EmptyString)
  | String c rest =>
      match digit_of_char c with
      | Some d => let '(u, tail) := read_digits rest in (d u, tail)
      | None => (Nil, s)
      end
  end.

(** What may follow a number in the text: nothing, or a character that is
    not a digit. *)
Definition ends_number (s : string) : Prop :=
  match s with
  | EmptyString => True
  | String c _ => digit_of_char c = None
  end.

(** A number is at least one digit. *)
Definition read_number (s : string) : option (Z * string) :=
  match read_digits s with
  | (Nil, _) => None
  | (u, tail) => Some (Z.of_N (N.of_uint u), tail)
  end.

Definition expect (c : ascii) (s : string) : option string :=
  match s with
  | String c' rest => if Ascii.eqb c c' then Some rest else None
  | EmptyString => None
  end.

Definition read_star (s : string) : bool * string :=
  match s with
  | String "*"%char rest => (true, rest)
  | _ => (false, s)
  end.

(** Modelled from the spec: [from_string] is named by the round-trip
    property only and is not among the sources.  It reads the textual form
    of section 3, an optional [*] and then [<file_id>:<line>:<column>] in
    decimal, and builds the Location with the constructor; text of any other
    shape, or a field that does not fit, gives no Location. *)
Definition from_string (s : string) : option Location :=
  let '(star, s) := read_star s in
  '(f, s) ← read_number s;
  s ← expect ":"%char s;
  '(l, s) ← read_number s;
  s ← expect ":"%char s;
  '(c, s) ← read_number s;
  match s, new 0 star f l c with
  | EmptyString, Ok loc => Some loc
  | _, _ => None
  end.

End Loc.

(** ** IndexedFileDb *)

Record IndexedFileDb : Type := {
  file_path_to_file_id : gmap string FileId;
  file_id_to_file_path : gmap FileId string;
}.

(** What the frontend reports for a [CXSourceLocation]:
    [clang_getSpellingLocation] gives the file (null when there is none), the
    line and the column as [unsigned int]; [clang_getFileName] gives the path
    of a file. *)
Record CXSourceLocation : Type := {
  spelling_file : option string;
  spelling_line : Z;
  spelling_column : Z;
}.

(** The contents of the storage [Resolve] reads without having written it:
    the local [file_id] is declared without an initialiser, and the
    Location it returns is built in place. *)
Record Uninitialised : Type := {
  uninit_file_id : FileId;
  uninit_location : Z;
}.

Module FileDb.

(** [IndexedFileDb()]: "Reserve id 0 for unfound." *)
Definition new : IndexedFileDb := {|
  file_path_to_file_id := <[EmptyString := 0]> ∅;
  file_id_to_file_path := <[0 := EmptyString]> ∅;
|}.

(** [Resolve(const CXSourceLocation&, bool)].  The maps are updated before
    the Location is constructed, so the database after the call is returned
    next to the constructor's outcome.  [size()] is a [size_t]; a map in
    memory holds fewer than 2^63 entries, so its conversion to [FileId]
    keeps the value. *)
Definition Resolve (db : IndexedFileDb) (stack : Uninitialised)
    (cx_loc : CXSourceLocation) (interesting : bool)
    : IndexedFileDb * Result Location :=
  let file_id := uninit_file_id stack in
  let '(db, file_id) :=
    match spelling_file cx_loc with
    | Some path =>
        match file_path_to_file_id db !! path with
        | Some it => (db, it)
        | None =>
            let file_id := Z.of_nat (size (file_path_to_file_id db)) in
            ({| file_path_to_file_id :=
                  <[path := file_id]> (file_path_to_file_id db);
                file_id_to_file_path :=
                  <[file_id := path]> (file_id_to_file_path db) |},
             file_id)
        end
    | None => (db, file_id)
    end in
  (db, Loc.new (uninit_location stack) interesting file_id
         (spelling_line cx_loc) (spelling_column cx_loc)).

(** The database after a sequence of calls. *)
Fixpoint run (db : IndexedFileDb)
    (calls : list (Uninitialised * CXSourceLocation * bool))
    : IndexedFileDb :=
  match calls with
  | [] => db
  | (stack, cx_loc, interesting) :: calls =>
      run (Resolve db stack cx_loc interesting).1 calls
  end.

(** The paths and the ids of a table are matched one to one, the ids are
    the numbers below the size of the path map, and the empty path has
    id 0. *)
Definition table_ok (db : IndexedFileDb) : Prop :=
  file_path_to_file_id db !! EmptyString = Some 0 ∧
  (∀ path id, file_path_to_file_id db !! path = Some id ↔
              file_id_to_file_path db !! id = Some path) ∧
  (∀ id, is_Some (file_id_to_file_path db !! id) ↔
         0 <= id < Z.of_nat (size (file_path_to_file_id db))).

End FileDb.

(** ** Local ids and references *)

(** [LocalId<T>]: a [uint64_t]; the three instances are told apart by name. *)
Abbreviation TypeId := N (only parsing).
Abbreviation FuncId := N (only parsing).
Abbreviation VarId := N (only parsing).

(** [Ref<T>] at Func. *)
Record FuncRef : Type := {
  ref_id : FuncId;
  ref_loc : Location;
}.

(** ** Entity records *)

Record TypeDefDefinitionData : Type := {
  type_id : TypeId;
  type_usr : string;
  type_short_name : string;
  type_qualified_name : string;
  type_definition : option Location;
  type_alias_of : option TypeId;
  type_parents : list TypeId;
  type_types : list TypeId;
  type_funcs : list FuncId;
  type_vars : list VarId;
}.

Record IndexedTypeDef : Type := {
  type_def : TypeDefDefinitionData;
  type_derived : list TypeId;
  type_uses : list Location;
  type_is_system_def : bool;
}.

Record FuncDefDefinitionData : Type := {
  func_id : FuncId;
  func_usr : string;
  func_short_name : string;
  func_qualified_name : string;
  func_definition : option Location;
  func_declaring_type : option TypeId;
  func_base : option FuncId;
  func_locals : list VarId;
  func_callees : list FuncRef;
}.

Record IndexedFuncDef : Type := {
  func_def : FuncDefDefinitionData;
  func_declarations : list Location;
  func_derived : list FuncId;
  func_callers : list FuncRef;
  func_uses : list Location;
  func_is_system_def : bool;
}.

Record VarDefDefinitionData : Type := {
  var_id : VarId;
  var_usr : string;
  var_short_name : string;
  var_qualified_name : string;
  var_declaration : option Location;
  var_definition : option Location;
  var_variable_type : option TypeId;
  var_declaring_type : option TypeId;
}.

Record IndexedVarDef : Type := {
  var_def : VarDefDefinitionData;
  var_uses : list Location;
  var_is_system_def : bool;
}.

(** [usr.size() > 0] *)
Definition usr_nonempty (usr : string) : bool :=
  negb (String.length usr =? 0)%nat.

Module Ctor.

(** [TypeDefDefinitionData(TypeId id, const std::string& usr) : id(id),
    usr(usr) {}] *)
Definition TypeDefDefinitionData (id : TypeId) (usr : string)
    : Result TypeDefDefinitionData :=
  Ok {| type_id := id; type_usr := usr;
        type_short_name := EmptyString; type_qualified_name := EmptyString;
        type_definition := None; type_alias_of := None;
        type_parents := []; type_types := []; type_funcs := [];
        type_vars := [] |}.

(** Modelled from the spec: the body of [IndexedTypeDef(TypeId, const
    std::string&)] is declared in the header only.  "Type accepts anonymous
    types": the record is built around its definition data and nothing is
    asserted of the USR. *)
Definition IndexedTypeDef (id : TypeId) (usr : string)
    : Result IndexedTypeDef :=
  def ← TypeDefDefinitionData id usr;
  Ok {| type_def := def; type_derived := []; type_uses := [];
        type_is_system_def := false |}.

(** [FuncDefDefinitionData(FuncId id, const std::string& usr)]:
    [assert(usr.size() > 0)]. *)
Definition FuncDefDefinitionData (id : FuncId) (usr : string)
    : Result FuncDefDefinitionData :=
  _ ← assert_that (usr_nonempty usr) InvariantViolated;
  Ok {| func_id := id; func_usr := usr;
        func_short_name := EmptyString; func_qualified_name := EmptyString;
        func_definition := None; func_declaring_type := None;
        func_base := None; func_locals := []; func_callees := [] |}.

(** [IndexedFuncDef(FuncId id, const std::string& usr) : def(id, usr)]:
    [assert(usr.size() > 0)]. *)
Definition IndexedFuncDef (id : FuncId) (usr : string)
    : Result IndexedFuncDef :=
  def ← FuncDefDefinitionData id usr;
  _ ← assert_that (usr_nonempty usr) InvariantViolated;
  Ok {| func_def := def; func_declarations := []; func_derived := [];
        func_callers := []; func_uses := [];
        func_is_system_def := false |}.

(** [VarDefDefinitionData(VarId id, const std::string& usr) : id(id),
    usr(usr) {}] *)
Definition VarDefDefinitionData (id : VarId) (usr : string)
    : Result VarDefDefinitionData :=
  Ok {| var_id := id; var_usr := usr;
        var_short_name := EmptyString; var_qualified_name := EmptyString;
        var_declaration := None; var_definition := None;
        var_variable_type := None; var_declaring_type := None |}.

(** [IndexedVarDef(VarId id, const std::string& usr) : def(id, usr)]:
    [assert(usr.size() > 0)]. *)
Definition IndexedVarDef (id : VarId) (usr : string)
    : Result IndexedVarDef :=
  def ← VarDefDefinitionData id usr;
  _ ← assert_that (usr_nonempty usr) InvariantViolated;
  Ok {| var_def := def; var_uses := []; var_is_system_def := false |}.

End Ctor.

(** ** Usage insertion *)

Module Usage.

(** Modelled from the spec: [AddUsage(Location loc, bool
    insert_if_not_present = true)] is declared on IndexedTypeDef and its
    body is not among the sources.  Section 4.4: search [uses] for an
    element equal-ignoring-interesting to [loc]; if found and the existing
    location is not interesting but [loc] is, promote the existing entry;
    if not found, append [loc] when [insert_if_not_present] and do nothing
    otherwise.  [find_and_promote] is the search: [None] when no element
    matches. *)
Fixpoint find_and_promote (uses : list Location) (loc : Location)
    : option (list Location) :=
  match uses with
  | [] => None
  | existing :: rest =>
      if Loc.IsEqualTo existing loc then
        if (Loc.interesting existing =? 0) && negb (Loc.interesting loc =? 0)
        then Some (Loc.WithInteresting existing true :: rest)
        else Some (existing :: rest)
      else cons existing <$> find_and_promote rest loc
  end.

(** Modelled from the spec: the body of [AddUsage] on the [uses] vector is
    not among the sources.  Section 4.4, steps 3 and 4: when the search finds
    nothing, [loc] is appended if [insert_if_not_present] and nothing is done
    otherwise. *)
Definition AddUsage (uses : list Location) (loc : Location)
    (insert_if_not_present : bool) : list Location :=
  match find_and_promote uses loc with
  | Some uses => uses
  | None => if insert_if_not_present then uses ++ [loc] else uses
  end.

(** Modelled from the spec: [IndexedTypeDef::AddUsage] is declared in the
    header and its body is not among the sources; section 4.4 has it act on
    the record's [uses] as above. *)
Definition Type_AddUsage (t : IndexedTypeDef) (loc : Location)
    (insert_if_not_present : bool) : IndexedTypeDef :=
  {| type_def := type_def t; type_derived := type_derived t;
     type_uses := AddUsage (type_uses t) loc insert_if_not_present;
     type_is_system_def := type_is_system_def t |}.

(** Modelled from the spec: IndexedFuncDef has no [AddUsage] in the header,
    only its [uses] vector.  Section 4.4: "Func and Var expose the analogous
    usage insertion with the same promotion rule." *)
Definition Func_AddUsage (f : IndexedFuncDef) (loc : Location)
    (insert_if_not_present : bool) : IndexedFuncDef :=
  {| func_def := func_def f; func_declarations := func_declarations f;
     func_derived := func_derived f; func_callers := func_callers f;
     func_uses := AddUsage (func_uses f) loc insert_if_not_present;
     func_is_system_def := func_is_system_def f |}.

(** Modelled from the spec: IndexedVarDef has no [AddUsage] in the header,
    only its [uses] vector.  Section 4.4: "Func and Var expose the analogous
    usage insertion with the same promotion rule." *)
Definition Var_AddUsage (v : IndexedVarDef) (loc : Location)
    (insert_if_not_present : bool) : IndexedVarDef :=
  {| var_def := var_def v;
     var_uses := AddUsage (var_uses v) loc insert_if_not_present;
     var_is_system_def := var_is_system_def v |}.

(** An entity of any kind and its usage list. *)
Inductive Entity : Type :=
| EType (t : IndexedTypeDef)
| EFunc (f : IndexedFuncDef)
| EVar (v : IndexedVarDef).

Definition uses (e : Entity) : list Location :=
  match e with
  | EType t => type_uses t
  | EFunc f => func_uses f
  | EVar v => var_uses v
  end.

(** Modelled from the spec: the usage insertion of an entity of any kind,
    by the three insertions above. *)
Definition Entity_AddUsage (e : Entity) (call : Location * bool) : Entity :=
  match e with
  | EType t => EType (Type_AddUsage t call.1 call.2)
  | EFunc f => EFunc (Func_AddUsage f call.1 call.2)
  | EVar v => EVar (Var_AddUsage v call.1 call.2)
  end.

(** No two positions of [uses] hold locations equal ignoring the
    interesting bit. *)
Definition distinct (uses : list Location) : Prop :=
  ∀ (i j : nat) (a b : Location),
    i ≠ j → uses !! i = Some a → uses !! j = Some b →
    Loc.IsEqualTo a b = false.

(** One position of the list before and after a call. *)
Definition kept (loc : Location) (u u' : Location) : Prop :=
  uint64 u' ∧ Loc.IsEqualTo u' u = true ∧
  (Loc.interesting u = 1 → Loc.interesting u' = 1) ∧
  (Loc.IsEqualTo u loc = false → u' = u).

(** The entry the search leaves at a place that matches [loc]. *)
Definition promoted (loc existing : Location) : Location :=
  if (Loc.interesting existing =? 0) && negb (Loc.interesting loc =? 0)
  then Loc.WithInteresting existing true
  else existing.

End Usage.

(** ** IndexedFile *)

Record IndexedFile : Type := {
  usr_to_type_id : gmap string TypeId;
  usr_to_func_id : gmap string FuncId;
  usr_to_var_id : gmap string VarId;
  types : list IndexedTypeDef;
  funcs : list IndexedFuncDef;
  vars : list IndexedVarDef;
  file_db : IndexedFileDb;
}.

Module File.

(** Modelled from the spec: [IndexedFile()] is declared in the header only.
    "An IndexedFile is created empty (with FileIdTable seeded so the empty
    path maps to 0)." *)
Definition new : IndexedFile := {|
  usr_to_type_id := ∅; usr_to_func_id := ∅; usr_to_var_id := ∅;
  types := []; funcs := []; vars := [];
  file_db := FileDb.new;
|}.

(** Modelled from the spec: [ToTypeId], [ToFuncId] and [ToVarId] are
    declared in the header only.  Section 4.3: "if usr is present, return
    the existing id; else append a fresh record constructed with
    (fresh_id = vector.len, usr) and store the mapping."  The records are
    built by the constructors of the header. *)
Definition ToTypeId (f : IndexedFile) (usr : string)
    : Result (TypeId * IndexedFile) :=
  match usr_to_type_id f !! usr with
  | Some id => Ok (id, f)
  | None =>
      let id := N.of_nat (length (types f)) in
      record ← Ctor.IndexedTypeDef id usr;
      Ok (id, {| usr_to_type_id := <[usr := id]> (usr_to_type_id f);
                 usr_to_func_id := usr_to_func_id f;
                 usr_to_var_id := usr_to_var_id f;
                 types := types f ++ [record];
                 funcs := funcs f; vars := vars f;
                 file_db := file_db f |})
  end.

(** Modelled from the spec: [ToFuncId], declared in the header only; section
    4.3 as for [ToTypeId], with the record built by [IndexedFuncDef]. *)
Definition ToFuncId (f : IndexedFile) (usr : string)
    : Result (FuncId * IndexedFile) :=
  match usr_to_func_id f !! usr with
  | Some id => Ok (id, f)
  | None =>
      let id := N.of_nat (length (funcs f)) in
      record ← Ctor.IndexedFuncDef id usr;
      Ok (id, {| usr_to_type_id := usr_to_type_id f;
                 usr_to_func_id := <[usr := id]> (usr_to_func_id f);
                 usr_to_var_id := usr_to_var_id f;
                 types := types f;
                 funcs := funcs f ++ [record]; vars := vars f;
                 file_db := file_db f |})
  end.

(** Modelled from the spec: [ToVarId], declared in the header only; section
    4.3 as for [ToTypeId], with the record built by [IndexedVarDef]. *)
Definition ToVarId (f : IndexedFile) (usr : string)
    : Result (VarId * IndexedFile) :=
  match usr_to_var_id f !! usr with
  | Some id => Ok (id, f)
  | None =>
      let id := N.of_nat (length (vars f)) in
      record ← Ctor.IndexedVarDef id usr;
      Ok (id, {| usr_to_type_id := usr_to_type_id f;
                 usr_to_func_id := usr_to_func_id f;
                 usr_to_var_id := <[usr := id]> (usr_to_var_id f);
                 types := types f; funcs := funcs f;
                 vars := vars f ++ [record];
                 file_db := file_db f |})
  end.

(** The three kinds of entity, and the kind-indexed views of a file: its
    intern map and its record vector. *)
Inductive Kind : Type := Type_ | Func | Var.

#[global] Instance Kind_eq_dec : EqDecision Kind.
Proof. solve_decision. Defined.

Definition usr_to_id (k : Kind) (f : IndexedFile) : gmap string N :=
  match k with
  | Type_ => usr_to_type_id f
  | Func => usr_to_func_id f
  | Var => usr_to_var_id f
  end.

Definition records (k : Kind) (f : IndexedFile) : list Usage.Entity :=
  match k with
  | Type_ => Usage.EType <$> types f
  | Func => Usage.EFunc <$> funcs f
  | Var => Usage.EVar <$> vars f
  end.

Definition id_of (e : Usage.Entity) : N :=
  match e with
  | Usage.EType t => type_id (type_def t)
  | Usage.EFunc f => func_id (func_def f)
  | Usage.EVar v => var_id (var_def v)
  end.

Definition usr_of (e : Usage.Entity) : string :=
  match e with
  | Usage.EType t => type_usr (type_def t)
  | Usage.EFunc f => func_usr (func_def f)
  | Usage.EVar v => var_usr (var_def v)
  end.

(** Modelled from the spec: the interning function of a kind, one of the
    three above. *)
Definition ToId (k : Kind) (f : IndexedFile) (usr : string)
    : Result (N * IndexedFile) :=
  match k with
  | Type_ => ToTypeId f usr
  | Func => ToFuncId f usr
  | Var => ToVarId f usr
  end.

(** Files built from the empty one by interning. *)
Inductive reachable : IndexedFile → Prop :=
| reachable_new : reachable new
| reachable_ToId k f usr id f' :
    reachable f → ToId k f usr = Ok (id, f') → reachable f'.

(** Every binding of the intern map points at a record with that usr and
    that id, and every record sits at its id and is bound by its usr. *)
Definition interned (k : Kind) (f : IndexedFile) : Prop :=
  (∀ usr id, usr_to_id k f !! usr = Some id →
     ∃ e, records k f !! N.to_nat id = Some e ∧
          id_of e = id ∧ usr_of e = usr) ∧
  (∀ i e, records k f !! i = Some e →
     id_of e = N.of_nat i ∧ usr_to_id k f !! usr_of e = Some (N.of_nat i)).

(** What a successful interning of an unknown usr does to the file. *)
Definition appended (k : Kind) (f : IndexedFile) (usr : string)
    (id : N) (f' : IndexedFile) : Prop :=
  id = N.of_nat (length (records k f)) ∧
  (∃ e, records k f' = records k f ++ [e] ∧ id_of e = id ∧ usr_of e = usr) ∧
  usr_to_id k f' = <[usr := id]> (usr_to_id k f) ∧
  file_db f' = file_db f ∧
  (∀ k', k' ≠ k →
     records k' f' = records k' f ∧ usr_to_id k' f' = usr_to_id k' f).

End File.

(** ** The [$ccls/vars] request *)

Abbreviation Usr := Z (only parsing).

Inductive SymbolKind : Type :=
| KInvalid | KFile | KType | KFunc | KVar.

Record SymbolRef : Type := {
  sym_usr : Usr;
  sym_kind : SymbolKind;
}.

(** [QueryVar::Def], as far as the handler reads it: [type] is the USR of the
    variable's type and 0 when none is recorded. *)
Record QueryVarDef : Type := {
  def_type : Usr;
}.

(** [Param]: a text document position and the [kind] filter. *)
Record Param (Position : Type) : Type := {
  textDocument_path : string;
  position : Position;
  kind : Z;
}.
Arguments textDocument_path {Position} p.
Arguments position {Position} p.
Arguments kind {Position} p.

Section CclsVars.

(** The query database and the helpers of [query_utils.hh] and
    [message_handler.hh] are outside the sources; the handler is
    parameterised by them. *)
Context {Position QueryFile WorkingFile Use LsLocation : Type}.
Variable FindFile : string → option QueryFile.
Variable GetFileByFilename : QueryFile → WorkingFile.
Variable FindSymbolsAtLocation :
  WorkingFile → QueryFile → Position → list SymbolRef.
Variable GetVar_AnyDef : SymbolRef → option QueryVarDef.
Variable Type_instances : Usr → list Usr.
Variable GetVarDeclarations : list Usr → Z → list Use.
Variable GetLsLocations : list Use → list LsLocation.

(** [case Kind::Type]: the assignment to [result]. *)
Definition declarations_of (param : Param Position) (usr : Usr)
    : list LsLocation :=
  GetLsLocations (GetVarDeclarations (Type_instances usr) (kind param)).

(** The body of the loop: [result] after the switch on [sym.kind]. *)
Definition visit (param : Param Position) (result : list LsLocation)
    (sym : SymbolRef) : list LsLocation :=
  let usr := sym_usr sym in
  match sym_kind sym with
  | KVar =>
      match GetVar_AnyDef sym with
      | None => result
      | Some def =>
          if def_type def =? 0 then result
          else
            let usr := def_type def in
            declarations_of param usr
      end
  | KType => declarations_of param usr
  | _ => result
  end.

(** [MessageHandler::ccls_vars]: [None] when the file is not found and the
    handler returns without calling [reply]; otherwise what it replies. *)
Definition ccls_vars (param : Param Position) : option (list LsLocation) :=
  file ← FindFile (textDocument_path param);
  let working_file := GetFileByFilename file in
  let result := [] in
  let result :=
    fold_left (visit param)
      (FindSymbolsAtLocation working_file file (position param)) result in
  Some result.

(** A variable symbol without a definition, or whose definition has no
    type. *)
Definition untyped_var (sym : SymbolRef) : Prop :=
  sym_kind sym = KVar ∧
  (GetVar_AnyDef sym = None ∨
   ∃ def, GetVar_AnyDef sym = Some def ∧ def_type def = 0).

(** The type whose declarations a symbol puts in [result], if any. *)
Definition type_shown (sym : SymbolRef) : option Usr :=
  match sym_kind sym with
  | KType => Some (sym_usr sym)
  | KVar =>
      def ← GetVar_AnyDef sym;
      if def_type def =? 0 then None else Some (def_type def)
  | _ => None
  end.

End CclsVars.

(** ** Hash combination *)

Module Hash.

(** [hash_combine(std::size_t &seed, const T &v, Rest... rest)], with
    [size_t] of 64 bits.  [std::hash<T>] belongs to the standard library:
    the arguments are given by their hashes [hasher(v)], first to last.
    One argument: [seed ^= hasher(v) + 0x9e3779b9 + (seed << 6) +
    (seed >> 2)]. *)
Definition step (seed h : Z) : Z :=
  Z.lxor seed
    (to_uint64 (h + 0x9e3779b9 + to_uint64 (Z.shiftl seed 6)
                + Z.shiftr seed 2)).

(** The recursion on the argument pack; [hash_combine(seed)] is the empty
    overload. *)
Fixpoint hash_combine (seed : Z) (hashes : list Z) : Z :=
  match hashes with
  | [] => seed
  | h :: rest => hash_combine (step seed h) rest
  end.

(** [MAKE_HASHABLE(type, ...)]: [operator()] starts from [ret = 0]. *)
Definition MAKE_HASHABLE (hashes : list Z) : Z :=
  let ret := 0 in
  hash_combine ret hashes.

End Hash.

(** * Properties *)

(** ** The model on concrete inputs *)

Example ToString_interesting : Loc.ToString 7 = "*3:0:0".
Proof. reflexivity. Qed.

Example ToString_plain :
  Loc.ToString (2 ^ 50 * 12 + 2 ^ 30 * 345 + 2 * 67) = "67:345:12".
Proof. reflexivity. Qed.

Example from_string_plain :
  Loc.from_string "67:345:12" = Some (2 ^ 50 * 12 + 2 ^ 30 * 345 + 2 * 67).
Proof. reflexivity. Qed.

Example from_string_column_too_wide : Loc.from_string "3:1:16384" = None.
Proof. reflexivity. Qed.

Example new_overwrites_storage :
  Loc.new (2 ^ 64 - 1) true 3 1 2 = Ok (2 ^ 50 * 2 + 2 ^ 30 * 1 + 2 * 3 + 1).
Proof. reflexivity. Qed.

Example new_line_too_wide :
  Loc.new 0 false 3 (2 ^ 20) 2 = Abort CapacityExceeded.
Proof. reflexivity. Qed.

Example Resolve_three_calls :
  let stack := {| uninit_file_id := 0; uninit_location := 0 |} in
  let at_ path := {| spelling_file := Some path; spelling_line := 1;
                     spelling_column := 1 |} in
  let db := FileDb.run FileDb.new
              [(stack, at_ "a.cc", false); (stack, at_ "b.h", false);
               (stack, at_ "a.cc", true)] in
  file_path_to_file_id db !! "a.cc" = Some 1 ∧
  file_path_to_file_id db !! "b.h" = Some 2 ∧
  file_id_to_file_path db !! 2 = Some "b.h" ∧
  size (file_path_to_file_id db) = 3%nat.
Proof. repeat split; reflexivity. Qed.

Example AddUsage_promotes : Usage.AddUsage [6; 2 ^ 30] 7 true = [7; 2 ^ 30].
Proof. reflexivity. Qed.

Example AddUsage_keeps_interest : Usage.AddUsage [7] 6 true = [7].
Proof. reflexivity. Qed.

Example AddUsage_without_insert : Usage.AddUsage [6] (2 ^ 30) false = [6].
Proof. reflexivity. Qed.

Example ToTypeId_twice :
  ∃ f1 f2, File.ToTypeId File.new "c:@S@Foo" = Ok (0%N, f1) ∧
           File.ToTypeId f1 "c:@S@Bar" = Ok (1%N, f2) ∧
           File.ToTypeId f2 "c:@S@Foo" = Ok (0%N, f2).
Proof. do 2 eexists. repeat split; reflexivity. Qed.

Example ToTypeId_anonymous :
  ∃ f1, File.ToTypeId File.new EmptyString = Ok (0%N, f1).
Proof. eexists. reflexivity. Qed.

(** ** Bit fields *)

Section BitFieldFacts.

Import BitField.

Lemma Maximum_ones len : 0 <= len → Maximum len = Z.ones len.
Proof.
  intros. unfold Maximum. rewrite Z.ones_equiv, Z.shiftl_1_l. lia.
Qed.

Lemma get_div_mod start len value :
  0 <= start → 0 <= len →
  get start len value = (value / 2 ^ start) mod 2 ^ len.
Proof.
  intros Hs Hl. unfold get. rewrite Maximum_ones by lia.
  rewrite Z.land_ones by lia. now rewrite Z.shiftr_div_pow2 by lia.
Qed.

Lemma get_bits start len value i :
  0 <= start → 0 <= len → 0 <= i →
  Z.testbit (get start len value) i = (i <? len) && Z.testbit value (i + start).
Proof.
  intros. unfold get. rewrite Maximum_ones by lia.
  rewrite Z.land_spec, Z.shiftr_spec, Z.testbit_ones_nonneg by lia.
  apply andb_comm.
Qed.

(** A write replaces the member's bits, keeps the other bits below 64 and
    leaves nothing above. *)
Lemma store_bits start len value v i :
  0 <= start → 0 <= len → 0 <= i →
  Z.testbit (store start len value v) i =
  (i <? 64) &&
    (if (start <=? i) && (i <? start + len) then Z.testbit v (i - start)
     else Z.testbit value i || Z.testbit v (i - start)).
Proof.
  intros. unfold store, Mask, to_uint64. rewrite Maximum_ones by lia.
  rewrite <- !Z.land_ones by lia.
  rewrite Z.lor_spec, !Z.land_spec, Z.lnot_spec, !Z.shiftl_spec by lia.
  rewrite (Z.testbit_ones_nonneg 64) by lia.
  destruct (Z.ltb_spec i 64); simpl; rewrite ?andb_false_r; [|reflexivity].
  rewrite !andb_true_r.
  destruct (Z.leb_spec start i); simpl.
  - rewrite Z.testbit_ones_nonneg by lia.
    replace (i - start <? len) with (i <? start + len) by lia.
    destruct (i <? start + len); simpl;
      now rewrite ?andb_false_r, ?andb_true_r.
  - rewrite !(Z.testbit_neg_r _ (i - start)) by lia. simpl.
    now rewrite andb_true_r.
Qed.

Lemma small_bits v len i :
  0 <= len → 0 <= v <= Maximum len → len <= i → Z.testbit v i = false.
Proof.
  intros Hlen Hv Hi. rewrite Maximum_ones, Z.ones_equiv in Hv by lia.
  destruct (Z.eq_dec v 0) as [->|]; [apply Z.bits_0|].
  apply Z.bits_above_log2; [lia|].
  apply Z.log2_lt_pow2; [lia|].
  assert (2 ^ len <= 2 ^ i) by (apply Z.pow_le_mono_r; lia). lia.
Qed.

Ltac ztest :=
  repeat match goal with
  | |- context [?a <? ?b] => destruct (Z.ltb_spec a b); try lia
  | |- context [?a <=? ?b] => destruct (Z.leb_spec a b); try lia
  end; simpl.

Lemma get_store_same start len value v :
  0 <= start → 0 <= len → start + len <= 64 → 0 <= v <= Maximum len →
  get start len (store start len value v) = v.
Proof.
  intros. apply Z.bits_inj'. intros i Hi.
  rewrite get_bits, store_bits by lia. ztest.
  all: try (f_equal; lia).
  all: symmetry; apply (small_bits v len); (assumption || lia).
Qed.

Lemma get_store_other s1 l1 s2 l2 value v :
  0 <= s1 → 0 <= l1 → 0 <= s2 → 0 <= l2 → s2 + l2 <= 64 →
  s1 + l1 <= s2 ∨ s2 + l2 <= s1 →
  0 <= v <= Maximum l1 →
  get s2 l2 (store s1 l1 value v) = get s2 l2 value.
Proof.
  intros. apply Z.bits_inj'. intros i Hi.
  rewrite !get_bits, store_bits by lia. ztest; try reflexivity.
  all: try (rewrite (Z.testbit_neg_r v) by lia; apply orb_false_r).
  all: try (rewrite (small_bits v l1) by (assumption || lia);
            apply orb_false_r).
Qed.

Lemma store_uint64 start len value v :
  0 <= start → 0 <= len → uint64 (store start len value v).
Proof.
  intros. unfold uint64.
  assert (store start len value v = store start len value v mod 2 ^ 64)
    as ->.
  { rewrite <- Z.land_ones by lia. apply Z.bits_inj'. intros i Hi.
    rewrite Z.land_spec, Z.testbit_ones_nonneg, store_bits by lia.
    ztest; now rewrite ?andb_true_r, ?andb_false_r. }
  apply Z.mod_pos_bound. lia.
Qed.

Lemma assign_Ok start len value v :
  v <= Maximum len → assign start len value v = Ok (store start len value v).
Proof.
  intros Hv. unfold assign, assert_that.
  destruct (Z.leb_spec v (Maximum len)); [reflexivity|lia].
Qed.

Lemma assign_Abort start len value v :
  Maximum len < v → assign start len value v = Abort CapacityExceeded.
Proof.
  intros Hv. unfold assign, assert_that.
  destruct (Z.leb_spec v (Maximum len)); [lia|reflexivity].
Qed.

End BitFieldFacts.

(** ** Locations *)

Section LocationFacts.

Import Loc.

Ltac fields :=
  unfold interesting, file_id, line, column;
  rewrite ?get_div_mod by lia.

(** The four members cover the word: a 64-bit value is its fields. *)
Lemma fields_value (x : Location) :
  uint64 x →
  x = interesting x + 2 * file_id x + 2 ^ 30 * line x + 2 ^ 50 * column x.
Proof.
  unfold uint64. intros Hx. fields.
  change (2 ^ 0) with 1. rewrite Z.div_1_r.
  change (2 ^ 1) with 2.
  pose proof (Z.div_mod x 2 ltac:(lia)).
  pose proof (Z.mod_pos_bound x 2 ltac:(lia)).
  Z.to_euclidean_division_equations. lia.
Qed.

Lemma fields_range (x : Location) :
  (0 <= interesting x < 2) ∧ (0 <= file_id x < 2 ^ 29) ∧
  (0 <= line x < 2 ^ 20) ∧ (0 <= column x < 2 ^ 14).
Proof. fields. repeat split; apply Z.mod_pos_bound; lia. Qed.

(** Two 64-bit values with the same four fields are the same value. *)
Lemma fields_inj (x y : Location) :
  uint64 x → uint64 y →
  interesting x = interesting y → file_id x = file_id y →
  line x = line y → column x = column y → x = y.
Proof.
  intros Hx Hy Hi Hf Hl Hc.
  rewrite (fields_value x Hx), (fields_value y Hy). congruence.
Qed.

Lemma shiftr_1_fields (x : Location) :
  uint64 x →
  Z.shiftr x 1 = file_id x + 2 ^ 29 * line x + 2 ^ 49 * column x.
Proof.
  intros Hx. pose proof (fields_value x Hx) as Hv.
  pose proof (fields_range x) as (Hi & _).
  rewrite Z.shiftr_div_pow2 by lia. change (2 ^ 1) with 2.
  symmetry. apply Z.div_unique with (r := interesting x); lia.
Qed.

Lemma Maximum_1 : BitField.Maximum 1 = 1.
Proof. reflexivity. Qed.
Lemma Maximum_29 : BitField.Maximum 29 = 2 ^ 29 - 1.
Proof. reflexivity. Qed.
Lemma Maximum_20 : BitField.Maximum 20 = 2 ^ 20 - 1.
Proof. reflexivity. Qed.
Lemma Maximum_14 : BitField.Maximum 14 = 2 ^ 14 - 1.
Proof. reflexivity. Qed.

(** A [bool] fits the one-bit member. *)
Lemma set_interesting_bool (l : Location) (b : bool) :
  set_interesting l (Z.b2z b) = Ok (WithInteresting l b).
Proof.
  unfold set_interesting, WithInteresting. apply assign_Ok.
  rewrite Maximum_1. destruct b; simpl; lia.
Qed.

(** What the constructor builds when every argument fits. *)
Lemma new_fits raw (i : bool) (f l c : Z) :
  0 <= f < 2 ^ 29 → 0 <= l < 2 ^ 20 → 0 <= c < 2 ^ 14 →
  ∃ loc, new raw i f l c = Ok loc ∧ uint64 loc ∧
    interesting loc = Z.b2z i ∧ file_id loc = f ∧
    line loc = l ∧ column loc = c.
Proof.
  intros Hf Hl Hc. unfold new.
  rewrite set_interesting_bool. simpl.
  unfold to_uint64. rewrite !Z.mod_small by lia.
  unfold set_file_id, set_line, set_column.
  rewrite assign_Ok by (rewrite Maximum_29; lia). simpl.
  rewrite assign_Ok by (rewrite Maximum_20; lia). simpl.
  rewrite assign_Ok by (rewrite Maximum_14; lia).
  eexists. split; [reflexivity|].
  assert (0 <= Z.b2z i <= BitField.Maximum 1)
    by (rewrite Maximum_1; destruct i; simpl; lia).
  assert (0 <= f <= BitField.Maximum 29) by (rewrite Maximum_29; lia).
  assert (0 <= l <= BitField.Maximum 20) by (rewrite Maximum_20; lia).
  assert (0 <= c <= BitField.Maximum 14) by (rewrite Maximum_14; lia).
  split; [apply store_uint64; lia|].
  unfold interesting, file_id, line, column, WithInteresting.
  repeat split.
  - rewrite !(get_store_other _ _ 0 1) by lia. apply get_store_same; lia.
  - rewrite !(get_store_other _ _ 1 29) by lia. apply get_store_same; lia.
  - rewrite !(get_store_other _ _ 30 20) by lia. apply get_store_same; lia.
  - apply get_store_same; lia.
Qed.

End LocationFacts.

Lemma IsEqualTo_fields (a b : Location) :
  uint64 a → uint64 b →
  Loc.IsEqualTo a b = true ↔
  Loc.file_id a = Loc.file_id b ∧ Loc.line a = Loc.line b ∧
  Loc.column a = Loc.column b.
Proof.
  intros Ha Hb. unfold Loc.IsEqualTo.
  rewrite Z.eqb_eq, (shiftr_1_fields a Ha), (shiftr_1_fields b Hb).
  pose proof (fields_range a) as (_ & ? & ? & ?).
  pose proof (fields_range b) as (_ & ? & ? & ?).
  split; [|intros (-> & -> & ->); reflexivity].
  intros Heq. lia.
Qed.

(** C6. [a.IsEqualTo(b)] is true exactly when [a] and [b] agree on file_id,
    line and column; the interesting bit takes no part in the comparison:
    whatever the two bits are, the answer is that of the three fields. *)
Theorem IsEqualTo_iff_fields (a b : Location) :
  uint64 a → uint64 b →
  (Loc.IsEqualTo a b = true ↔
   Loc.file_id a = Loc.file_id b ∧ Loc.line a = Loc.line b ∧
   Loc.column a = Loc.column b) ∧
  ∀ i j : bool,
    Loc.IsEqualTo (Loc.WithInteresting a i) (Loc.WithInteresting b j) =
    Loc.IsEqualTo a b.
Proof.
  intros Ha Hb. split; [now apply IsEqualTo_fields|].
  intros i j.
  assert (∀ x (k : bool), uint64 x →
            Z.shiftr (Loc.WithInteresting x k) 1 = Z.shiftr x 1) as Hshift.
  { intros x k Hx. unfold Loc.WithInteresting.
    assert (0 <= Z.b2z k <= BitField.Maximum 1)
      by (rewrite Maximum_1; destruct k; simpl; lia).
    rewrite !shiftr_1_fields by (done || apply store_uint64; lia).
    unfold Loc.file_id, Loc.line, Loc.column.
    now rewrite !get_store_other by lia. }
  unfold Loc.IsEqualTo. now rewrite !Hshift.
Qed.

Lemma IsEqualTo_iff_fields_witness :
  uint64 7 ∧ uint64 6 ∧
  (Loc.IsEqualTo 7 6 = true ↔
   Loc.file_id 7 = Loc.file_id 6 ∧ Loc.line 7 = Loc.line 6 ∧
   Loc.column 7 = Loc.column 6).
Proof.
  split; [unfold uint64; lia|]. split; [unfold uint64; lia|].
  apply (IsEqualTo_iff_fields 7 6); unfold uint64; lia.
Defined.

(** C2. The constructor [Location(interesting, file_id, line, column)]
    succeeds exactly when every argument fits its member (1, 29, 20 and 14
    bits), and then each member reads back the argument; when an argument
    does not fit, construction fails with CapacityExceeded and no Location is
    produced. *)
Theorem Location_new_asserts_widths (raw : Z) (i : bool) (f l c : Z) :
  int64 f → uint32 l → uint32 c →
  (0 <= f < 2 ^ 29 ∧ l < 2 ^ 20 ∧ c < 2 ^ 14 →
   ∃ loc, Loc.new raw i f l c = Ok loc ∧
     Loc.interesting loc = Z.b2z i ∧ Loc.file_id loc = f ∧
     Loc.line loc = l ∧ Loc.column loc = c) ∧
  (¬ (0 <= f < 2 ^ 29 ∧ l < 2 ^ 20 ∧ c < 2 ^ 14) →
   Loc.new raw i f l c = Abort CapacityExceeded).
Proof.
  unfold int64, uint32. intros Hf Hl Hc. split.
  - intros (Hf' & Hl' & Hc').
    destruct (new_fits raw i f l c) as (loc & Hnew & _ & Hfields);
      [lia..|]. eauto.
  - intros Hout. unfold Loc.new. rewrite set_interesting_bool. simpl.
    unfold Loc.set_file_id, Loc.set_line, Loc.set_column, to_uint64.
    rewrite (Z.mod_small l), (Z.mod_small c) by lia.
    destruct (Z.lt_ge_cases f 0).
    { rewrite assign_Abort; [reflexivity|].
      rewrite Maximum_29.
      replace (f mod 2 ^ 64) with (f + 2 ^ 64); [lia|].
      apply Z.mod_unique with (q := -1); lia. }
    rewrite (Z.mod_small f) by lia.
    destruct (Z.lt_ge_cases f (2 ^ 29)).
    2: { rewrite assign_Abort; [reflexivity|rewrite Maximum_29; lia]. }
    rewrite assign_Ok by (rewrite Maximum_29; lia). simpl.
    destruct (Z.lt_ge_cases l (2 ^ 20)).
    2: { rewrite assign_Abort; [reflexivity|rewrite Maximum_20; lia]. }
    rewrite assign_Ok by (rewrite Maximum_20; lia). simpl.
    rewrite assign_Abort; [reflexivity|rewrite Maximum_14; lia].
Qed.

Lemma Location_new_asserts_widths_witness :
  int64 (2 ^ 29) ∧ uint32 4 ∧ uint32 2 ∧
  Loc.new 0 true (2 ^ 29) 4 2 = Abort CapacityExceeded.
Proof.
  split; [unfold int64; lia|]. split; [unfold uint32; lia|].
  split; [unfold uint32; lia|].
  apply (Location_new_asserts_widths 0 true (2 ^ 29) 4 2);
    unfold int64, uint32; lia.
Defined.

(** ** The textual form *)

Section TextFacts.

Import Loc.

Lemma append_nil (t : string) : EmptyString +:+ t = t.
Proof. reflexivity. Qed.

Lemma append_cons (c : ascii) (s t : string) :
  String c s +:+ t = String c (s +:+ t).
Proof. reflexivity. Qed.

Lemma append_assoc (s t u : string) : (s +:+ t) +:+ u = s +:+ (t +:+ u).
Proof.
  induction s as [|c s IH]; [reflexivity|].
  rewrite !append_cons. now rewrite IH.
Qed.

Lemma append_nil_r (s : string) : s +:+ EmptyString = s.
Proof.
  induction s as [|c s IH]; [reflexivity|]. now rewrite append_cons, IH.
Qed.

Lemma read_digits_printed (u : uint) (t : string) :
  ends_number t →
  read_digits (NilEmpty.string_of_uint u +:+ t) = (u, t).
Proof.
  intros Ht.
  induction u as [|u IH|u IH|u IH|u IH|u IH|u IH|u IH|u IH|u IH|u IH];
    cbn [NilEmpty.string_of_uint];
    rewrite ?append_cons, ?append_nil; cbn [read_digits digit_of_char];
    rewrite ?IH; try reflexivity.
  destruct t as [|c t]; [reflexivity|].
  cbn [read_digits]. cbn [ends_number] in Ht. now rewrite Ht.
Qed.

Lemma to_uint_nonnil (n : N) : N.to_uint n ≠ Nil.
Proof.
  destruct n; [discriminate|]. apply DecimalPos.Unsigned.to_uint_nonnil.
Qed.

Lemma read_number_to_string (v : Z) (t : string) :
  0 <= v → ends_number t →
  read_number (to_string v +:+ t) = Some (v, t).
Proof.
  intros Hv Ht. unfold read_number, to_string.
  rewrite read_digits_printed by assumption.
  pose proof (to_uint_nonnil (Z.to_N v)) as Hnil.
  destruct (N.to_uint (Z.to_N v)) eqn:Hu; [contradiction|..];
    rewrite <- Hu, DecimalN.Unsigned.of_to, Z2N.id by lia; reflexivity.
Qed.

(** A printed number starts with a digit, never with the star. *)
Lemma read_star_to_string (v : Z) (t : string) :
  read_star (to_string v +:+ t) = (false, to_string v +:+ t).
Proof.
  unfold to_string.
  pose proof (to_uint_nonnil (Z.to_N v)) as Hnil.
  destruct (N.to_uint (Z.to_N v)); [contradiction|..]; reflexivity.
Qed.

Lemma to_string_not_star (v : Z) (t rest : string) :
  to_string v +:+ t ≠ String "*"%char rest.
Proof.
  intros Heq. pose proof (read_star_to_string v t) as Hstar.
  rewrite Heq in Hstar. discriminate.
Qed.

(** [ToString] with the appends grouped to the right. *)
Lemma ToString_eq (x : Location) :
  ToString x =
  (if interesting x =? 0 then EmptyString else String "*"%char EmptyString)
  +:+ to_string (file_id x) +:+ String ":"%char
       (to_string (line x) +:+ String ":"%char (to_string (column x))).
Proof.
  unfold ToString. destruct (interesting x =? 0);
    rewrite ?append_assoc, ?append_nil, ?append_cons, ?append_nil;
    reflexivity.
Qed.

End TextFacts.

(** C8. [ToString] gives ["<file_id>:<line>:<column>"] in decimal, with a
    star in front exactly when the interesting bit is set. *)
Theorem ToString_format (x : Location) :
  Loc.ToString x =
    (if Z.testbit x 0 then String "*"%char EmptyString else EmptyString)
    +:+ Loc.to_string (Loc.file_id x) +:+ String ":"%char EmptyString
    +:+ Loc.to_string (Loc.line x) +:+ String ":"%char EmptyString
    +:+ Loc.to_string (Loc.column x)
  ∧ ((∃ rest, Loc.ToString x = String "*"%char rest) ↔ Z.testbit x 0 = true)
  ∧ (Loc.file_id x = (x / 2) mod 2 ^ 29 ∧
     Loc.line x = (x / 2 ^ 30) mod 2 ^ 20 ∧
     Loc.column x = (x / 2 ^ 50) mod 2 ^ 14).
Proof.
  assert (Loc.interesting x = Z.b2z (Z.testbit x 0)) as Hbit.
  { unfold Loc.interesting. rewrite get_div_mod by lia.
    change (2 ^ 0) with 1. rewrite Z.div_1_r. change (2 ^ 1) with 2.
    symmetry. apply Z.bit0_mod. }
  split; [|split].
  - rewrite ToString_eq, Hbit.
    destruct (Z.testbit x 0); cbn [Z.b2z Z.eqb];
      rewrite ?append_cons, ?append_nil; reflexivity.
  - rewrite ToString_eq, Hbit. destruct (Z.testbit x 0); cbn [Z.b2z Z.eqb].
    + split; [reflexivity|]. intros _. eexists.
      rewrite append_cons, append_nil. reflexivity.
    + rewrite append_nil. split; [|discriminate].
      intros [rest Hrest]. now apply to_string_not_star in Hrest.
  - unfold Loc.file_id, Loc.line, Loc.column.
    rewrite !get_div_mod by lia. auto.
Qed.

(** C7. Reading the textual form of a Location gives the Location back. *)
Theorem from_string_ToString (x : Location) :
  uint64 x → Loc.from_string (Loc.ToString x) = Some x.
Proof.
  intros Hx. rewrite ToString_eq. unfold Loc.from_string.
  pose proof (fields_range x) as (Hi & Hf & Hl & Hc).
  assert (∃ star : bool,
    Loc.read_star
      ((if Loc.interesting x =? 0 then EmptyString
        else String "*"%char EmptyString)
       +:+ Loc.to_string (Loc.file_id x) +:+ String ":"%char
         (Loc.to_string (Loc.line x) +:+ String ":"%char
            (Loc.to_string (Loc.column x)))) =
    (star, Loc.to_string (Loc.file_id x) +:+ String ":"%char
         (Loc.to_string (Loc.line x) +:+ String ":"%char
            (Loc.to_string (Loc.column x)))) ∧
    Z.b2z star = Loc.interesting x) as (star & -> & Hstar).
  { destruct (Z.eqb_spec (Loc.interesting x) 0) as [H0|H0].
    - exists false. rewrite append_nil, read_star_to_string.
      split; [reflexivity|]. rewrite H0. reflexivity.
    - exists true. rewrite append_cons, append_nil. split; [reflexivity|].
      simpl. lia. }
  cbv beta iota.
  rewrite read_number_to_string by first [lia | exact eq_refl]. cbn [mbind option_bind].
  cbn [mbind option_bind Loc.expect Ascii.eqb Bool.eqb].
  rewrite read_number_to_string by first [lia | exact eq_refl]. cbn [mbind option_bind].
  cbn [mbind option_bind Loc.expect Ascii.eqb Bool.eqb].
  rewrite <- (append_nil_r (Loc.to_string (Loc.column x))) at 1.
  rewrite read_number_to_string by first [lia | exact I]. cbn [mbind option_bind].
  destruct (new_fits 0 star (Loc.file_id x) (Loc.line x) (Loc.column x))
    as (loc & -> & Hloc & Hli & Hlf & Hll & Hlc); [lia..|].
  f_equal. apply fields_inj; congruence.
Qed.

Lemma from_string_ToString_witness :
  uint64 13511169323040903 ∧
  Loc.from_string (Loc.ToString 13511169323040903) = Some 13511169323040903.
Proof.
  split; [unfold uint64; lia|].
  apply (from_string_ToString 13511169323040903). unfold uint64. lia.
Defined.

(** ** The file table *)

Section FileDbFacts.

Implicit Types db : IndexedFileDb.

Lemma table_ok_new : FileDb.table_ok FileDb.new.
Proof.
  unfold FileDb.table_ok, FileDb.new. cbn [file_path_to_file_id file_id_to_file_path].
  split; [apply lookup_insert_eq|]. split.
  - intros path id. rewrite !lookup_insert. repeat case_decide; subst;
      rewrite ?lookup_empty; split; intros; simplify_eq; done.
  - intros id. rewrite map_size_insert_None, map_size_empty
      by apply lookup_empty.
    rewrite lookup_insert. case_decide; subst; rewrite ?lookup_empty.
    + split; [lia|eauto].
    + split; [intros [? ?]; done|lia].
Qed.

Lemma Resolve_db_known db stack cx i path id :
  spelling_file cx = Some path →
  file_path_to_file_id db !! path = Some id →
  FileDb.Resolve db stack cx i =
    (db, Loc.new (uninit_location stack) i id
           (spelling_line cx) (spelling_column cx)).
Proof.
  intros Hf Hp. unfold FileDb.Resolve. rewrite Hf. cbv beta iota zeta.
  now rewrite Hp.
Qed.

Lemma Resolve_db_fresh db stack cx i path :
  spelling_file cx = Some path →
  file_path_to_file_id db !! path = None →
  FileDb.Resolve db stack cx i =
    let file_id := Z.of_nat (size (file_path_to_file_id db)) in
    ({| file_path_to_file_id :=
          <[path := file_id]> (file_path_to_file_id db);
        file_id_to_file_path :=
          <[file_id := path]> (file_id_to_file_path db) |},
     Loc.new (uninit_location stack) i file_id
       (spelling_line cx) (spelling_column cx)).
Proof.
  intros Hf Hp. unfold FileDb.Resolve. rewrite Hf. cbv beta iota zeta.
  now rewrite Hp.
Qed.

Lemma Resolve_db_null db stack cx i :
  spelling_file cx = None →
  FileDb.Resolve db stack cx i =
    (db, Loc.new (uninit_location stack) i (uninit_file_id stack)
           (spelling_line cx) (spelling_column cx)).
Proof. intros Hf. unfold FileDb.Resolve. now rewrite Hf. Qed.

Lemma table_ok_Resolve db stack cx i :
  FileDb.table_ok db → FileDb.table_ok (FileDb.Resolve db stack cx i).1.
Proof.
  intros Hok. destruct (spelling_file cx) as [path|] eqn:Hf.
  2: { rewrite Resolve_db_null by assumption. exact Hok. }
  destruct (file_path_to_file_id db !! path) as [id|] eqn:Hp.
  { erewrite Resolve_db_known by eassumption. exact Hok. }
  erewrite Resolve_db_fresh by eassumption. cbn [fst].
  destruct Hok as (H0 & Hbij & Hran).
  set (n := Z.of_nat (size (file_path_to_file_id db))) in *.
  assert (file_id_to_file_path db !! n = None) as Hn.
  { destruct (file_id_to_file_path db !! n) eqn:E; [|done].
    assert (0 <= n < n) by (apply Hran; eauto). lia. }
  unfold FileDb.table_ok. cbn [file_path_to_file_id file_id_to_file_path].
  split; [|split].
  - rewrite lookup_insert_ne; [done|]. intros ->. congruence.
  - intros p id. rewrite !lookup_insert.
    repeat case_decide; subst.
    + split; congruence.
    + rewrite <- Hbij, Hp. split; congruence.
    + rewrite Hbij. split; congruence.
    + apply Hbij.
  - intros id. rewrite map_size_insert_None by done.
    rewrite lookup_insert. case_decide; subst.
    + split; [lia|eauto].
    + rewrite Hran. lia.
Qed.

Lemma table_ok_run calls db :
  FileDb.table_ok db → FileDb.table_ok (FileDb.run db calls).
Proof.
  revert db. induction calls as [|[[stack cx] i] calls IH]; intros db Hok;
    [done|].
  cbn [FileDb.run]. apply IH. now apply table_ok_Resolve.
Qed.

End FileDbFacts.

(** C5. [Resolve] on a file whose path is not interned binds the path to
    the current size of the path map, in both maps, and uses that id; an
    interned path resolves to its id and the table is unchanged.  In every
    table built from the constructor the ids in use are the numbers below
    the size, with 0 for the empty path, so each fresh id is at least 1 and
    one more than the largest id in use. *)
Theorem Resolve_assigns_file_ids :
  (∀ db stack path line column interesting,
     let cx := {| spelling_file := Some path; spelling_line := line;
                  spelling_column := column |} in
     let raw := uninit_location stack in
     match file_path_to_file_id db !! path with
     | None =>
         let id := Z.of_nat (size (file_path_to_file_id db)) in
         FileDb.Resolve db stack cx interesting =
           ({| file_path_to_file_id := <[path := id]> (file_path_to_file_id db);
               file_id_to_file_path := <[id := path]> (file_id_to_file_path db) |},
            Loc.new raw interesting id line column) ∧
         size (file_path_to_file_id (FileDb.Resolve db stack cx interesting).1)
           = S (size (file_path_to_file_id db))
     | Some id =>
         FileDb.Resolve db stack cx interesting =
           (db, Loc.new raw interesting id line column)
     end) ∧
  size (file_path_to_file_id FileDb.new) = 1%nat ∧
  (∀ calls,
     let db := FileDb.run FileDb.new calls in
     let n := Z.of_nat (size (file_path_to_file_id db)) in
     1 <= n ∧
     file_path_to_file_id db !! EmptyString = Some 0 ∧
     (∀ path id, file_path_to_file_id db !! path = Some id →
        0 <= id < n ∧ file_id_to_file_path db !! id = Some path) ∧
     (∀ id, 0 <= id < n →
        ∃ path, file_path_to_file_id db !! path = Some id)).
Proof.
  split; [|split].
  - intros db stack path line column interesting cx raw.
    destruct (file_path_to_file_id db !! path) as [id|] eqn:Hp.
    + now erewrite Resolve_db_known.
    + erewrite Resolve_db_fresh by (done || reflexivity).
      split; [reflexivity|]. cbn [fst file_path_to_file_id].
      now apply map_size_insert_None.
  - unfold FileDb.new. cbn [file_path_to_file_id].
    now rewrite map_size_insert_None, map_size_empty by apply lookup_empty.
  - intros calls db n.
    destruct (table_ok_run calls FileDb.new table_ok_new)
      as (H0 & Hbij & Hran). fold db in H0, Hbij, Hran. fold n in Hran.
    assert (0 <= 0 < n) as Hn.
    { apply Hran. exists EmptyString. now apply Hbij. }
    split; [lia|]. split; [done|]. split.
    + intros path id Hp. apply Hbij in Hp as Hi. split; [|done].
      apply Hran. eauto.
    + intros id Hid. apply Hran in Hid as [path Hpath].
      exists path. now apply Hbij.
Qed.

(** C1. With a null file, [Resolve] never assigns the local [file_id]: the
    Location is built from what that variable holds.  When it holds 7 the
    Location returned for the null location has file id 7, not 0. *)
Theorem Resolve_null_file_id_unassigned :
  (∀ db stack line column interesting,
     FileDb.Resolve db stack
       {| spelling_file := None; spelling_line := line;
          spelling_column := column |} interesting
     = (db, Loc.new (uninit_location stack) interesting
              (uninit_file_id stack) line column)) ∧
  ∃ loc,
    (FileDb.Resolve FileDb.new {| uninit_file_id := 7; uninit_location := 0 |}
       {| spelling_file := None; spelling_line := 0; spelling_column := 0 |}
       false).2 = Ok loc ∧
    Loc.file_id loc = 7.
Proof.
  split; [intros; now apply Resolve_db_null|].
  exists 14. split; reflexivity.
Qed.

(** ** Record constructors *)

Lemma usr_nonempty_false (usr : string) :
  usr_nonempty usr = false ↔ usr = EmptyString.
Proof. destruct usr; cbn; split; congruence. Qed.

(** C9. Constructing a Func record (its definition data or the indexed
    record) or a Var record fails its assertion exactly when the USR is
    empty, and otherwise builds the record for that id and USR; constructing
    the Type record succeeds for every USR, the empty one included. *)
Theorem empty_usr_asserted_for_Func_and_Var (id : N) (usr : string) :
  (Ctor.FuncDefDefinitionData id usr = Abort InvariantViolated ↔
   usr = EmptyString) ∧
  (Ctor.IndexedFuncDef id usr = Abort InvariantViolated ↔
   usr = EmptyString) ∧
  (Ctor.IndexedVarDef id usr = Abort InvariantViolated ↔
   usr = EmptyString) ∧
  ((∃ r, Ctor.FuncDefDefinitionData id usr = Ok r ∧
         func_id r = id ∧ func_usr r = usr) ↔ usr ≠ EmptyString) ∧
  ((∃ r, Ctor.IndexedFuncDef id usr = Ok r ∧
         func_id (func_def r) = id ∧ func_usr (func_def r) = usr) ↔
   usr ≠ EmptyString) ∧
  ((∃ r, Ctor.IndexedVarDef id usr = Ok r ∧
         var_id (var_def r) = id ∧ var_usr (var_def r) = usr) ↔
   usr ≠ EmptyString) ∧
  (∃ r, Ctor.TypeDefDefinitionData id usr = Ok r ∧
        type_id r = id ∧ type_usr r = usr) ∧
  (∃ r, Ctor.TypeDefDefinitionData id EmptyString = Ok r ∧
        type_id r = id ∧ type_usr r = EmptyString).
Proof.
  unfold Ctor.IndexedFuncDef, Ctor.IndexedVarDef, Ctor.FuncDefDefinitionData,
    Ctor.VarDefDefinitionData, Ctor.TypeDefDefinitionData, assert_that.
  pose proof (usr_nonempty_false usr) as Hempty.
  destruct (usr_nonempty usr); cbn.
  - assert (usr ≠ EmptyString) by (intros E; apply Hempty in E; done).
    repeat split; try done; intros; eauto.
  - assert (usr = EmptyString) by (now apply Hempty).
    repeat split; try done; intros; eauto.
    all: match goal with H : ∃ _, _ |- _ => destruct H as (? & ? & _) end;
      discriminate.
Qed.

(** ** Interning *)

Section InternFacts.

Import File.

Lemma ToId_known k f usr id :
  usr_to_id k f !! usr = Some id → ToId k f usr = Ok (id, f).
Proof.
  destruct k; cbn [usr_to_id ToId]; intros Hu;
    unfold ToTypeId, ToFuncId, ToVarId; now rewrite Hu.
Qed.

Lemma ToId_fresh_inv k f usr id f' :
  usr_to_id k f !! usr = None → ToId k f usr = Ok (id, f') →
  appended k f usr id f'.
Proof.
  destruct k; cbn [usr_to_id ToId]; intros Hu;
    unfold ToTypeId, ToFuncId, ToVarId; rewrite Hu;
    unfold Ctor.IndexedTypeDef, Ctor.IndexedFuncDef, Ctor.IndexedVarDef,
      Ctor.TypeDefDefinitionData, Ctor.FuncDefDefinitionData,
      Ctor.VarDefDefinitionData, assert_that;
    destruct (usr_nonempty usr); cbn; intros [= <- <-];
    unfold appended, records, usr_to_id;
    cbn [types funcs vars usr_to_type_id usr_to_func_id usr_to_var_id file_db];
    (split; [now rewrite length_fmap|]);
    (split; [eexists; rewrite fmap_app; cbn; eauto|]);
    (split; [reflexivity|]); (split; [reflexivity|]);
    intros [] Hk; try done.
Qed.

Lemma ToId_fresh k f usr :
  usr_to_id k f !! usr = None → k = Type_ ∨ usr ≠ EmptyString →
  ∃ f', ToId k f usr = Ok (N.of_nat (length (records k f)), f').
Proof.
  intros Hu Hk.
  assert (k = Type_ ∨ usr_nonempty usr = true) as Hne.
  { destruct Hk as [->|Hk]; [now left|right].
    destruct (usr_nonempty usr) eqn:E; [done|].
    now apply usr_nonempty_false in E. }
  clear Hk. destruct k; cbn [usr_to_id ToId records] in *;
    unfold ToTypeId, ToFuncId, ToVarId; rewrite Hu, length_fmap;
    unfold Ctor.IndexedTypeDef, Ctor.IndexedFuncDef, Ctor.IndexedVarDef,
      Ctor.TypeDefDefinitionData, Ctor.FuncDefDefinitionData,
      Ctor.VarDefDefinitionData, assert_that;
    try (destruct Hne as [?| ->]; [done|]); cbn; eauto.
Qed.

Lemma ToId_fresh_empty k f :
  usr_to_id k f !! EmptyString = None → k ≠ Type_ →
  ToId k f EmptyString = Abort InvariantViolated.
Proof.
  intros Hu Hk. destruct k; [done|..]; cbn [usr_to_id ToId] in *;
    unfold ToFuncId, ToVarId; now rewrite Hu.
Qed.

Lemma interned_new k : interned k new.
Proof.
  split.
  - intros usr id. destruct k; cbn; now rewrite lookup_empty.
  - intros i e. destruct k; cbn; now rewrite lookup_nil.
Qed.

Lemma interned_ToId k k' f usr id f' :
  interned k f → ToId k' f usr = Ok (id, f') → interned k f'.
Proof.
  intros Hin Hto.
  destruct (usr_to_id k' f !! usr) as [id'|] eqn:Hu.
  { rewrite (ToId_known _ _ _ _ Hu) in Hto. now injection Hto as <- <-. }
  destruct (ToId_fresh_inv _ _ _ _ _ Hu Hto)
    as (Hid & (e & Hrec & Hide & Husr) & Hmap & _ & Hother).
  destruct (decide (k = k')) as [<-|Hne].
  2: { destruct (Hother k Hne) as [Hr Hm]. unfold interned.
       rewrite Hr, Hm. exact Hin. }
  destruct Hin as [Hfwd Hbwd]. unfold interned. rewrite Hrec, Hmap.
  split.
  - intros u i. rewrite lookup_insert. case_decide as Hd.
    + intros [= <-]. subst u. exists e.
      rewrite Hid, Nat2N.id, lookup_app_r, Nat.sub_diag by lia.
      split; [reflexivity|]. split; congruence.
    + intros Hl. destruct (Hfwd u i Hl) as (e0 & He0 & ?).
      exists e0. split; [|done]. rewrite lookup_app_l; [done|].
      now apply lookup_lt_Some in He0.
  - intros i e0 Hl. apply lookup_app_Some in Hl as [Hl|[Hlen Hl]].
    + destruct (Hbwd i e0 Hl) as [Hi Hm']. split; [done|].
      rewrite lookup_insert_ne; [done|]. congruence.
    + apply list_lookup_singleton_Some in Hl as [Hz <-].
      assert (i = length (records k f)) as -> by lia.
      split; [congruence|]. rewrite Husr, lookup_insert_eq. congruence.
Qed.

Lemma interned_reachable k f : reachable f → interned k f.
Proof.
  induction 1 as [|k' f usr id f' _ IH Hto]; [apply interned_new|].
  eapply interned_ToId; eassumption.
Qed.

End InternFacts.

(** C3, as stated, fails for the empty USR at Func and at Var: the USR is
    not interned in the empty file, and interning it appends nothing, the
    record constructor's assertion fails. *)
Lemma ToFuncId_empty_usr_aborts :
  usr_to_func_id File.new !! EmptyString = None ∧
  File.ToFuncId File.new EmptyString = Abort InvariantViolated ∧
  (¬ ∃ id f', File.ToId File.Func File.new EmptyString = Ok (id, f')) ∧
  usr_to_var_id File.new !! EmptyString = None ∧
  File.ToVarId File.new EmptyString = Abort InvariantViolated ∧
  (¬ ∃ id f', File.ToId File.Var File.new EmptyString = Ok (id, f')).
Proof.
  split; [reflexivity|]. split; [reflexivity|]. split.
  { intros (id & f' & H). discriminate H. }
  split; [reflexivity|]. split; [reflexivity|].
  intros (id & f' & H). discriminate H.
Qed.

(** C3, amended.  For every file, every kind and every USR, non-empty when
    the kind is Func or Var: interning a USR already in the kind's map
    returns the id bound to it and the same file; interning any other USR
    appends one record to the kind's vector, with id the length of the vector
    before and with that usr, binds the usr to the id, and changes nothing
    else.  Interning the empty USR as a Func or a Var, when it is not in the
    map, fails the record constructor's assertion, in any file.  The
    agreement of a kind's map with its vector (every binding points at a
    record with that usr and id, every record sits at its id and is bound by
    its usr) holds in the empty file and is kept by every successful
    interning of any kind; wherever it holds, a USR bound in the map is bound
    to the position of a record with that usr and id, and no two records of
    the kind have the same usr. *)
Theorem ToId_interns (k : File.Kind) (f : IndexedFile) (usr : string) :
  (∀ id, File.usr_to_id k f !! usr = Some id →
     File.ToId k f usr = Ok (id, f)) ∧
  (File.usr_to_id k f !! usr = None →
   k = File.Type_ ∨ usr ≠ EmptyString →
   ∃ e f',
     let id := N.of_nat (length (File.records k f)) in
     File.ToId k f usr = Ok (id, f') ∧
     File.records k f' = File.records k f ++ [e] ∧
     File.id_of e = id ∧ File.usr_of e = usr ∧
     File.usr_to_id k f' = <[usr := id]> (File.usr_to_id k f) ∧
     file_db f' = file_db f ∧
     ∀ k', k' ≠ k →
       File.records k' f' = File.records k' f ∧
       File.usr_to_id k' f' = File.usr_to_id k' f) ∧
  (File.usr_to_id k f !! usr = None →
   k ≠ File.Type_ → usr = EmptyString →
   File.ToId k f usr = Abort InvariantViolated) ∧
  File.interned k File.new ∧
  (∀ k' id f',
     File.interned k f → File.ToId k' f usr = Ok (id, f') →
     File.interned k f') ∧
  (File.interned k f →
   (∀ id, File.usr_to_id k f !! usr = Some id →
      ∃ e, File.records k f !! N.to_nat id = Some e ∧
           File.id_of e = id ∧ File.usr_of e = usr) ∧
   (∀ i j e e',
      File.records k f !! i = Some e → File.records k f !! j = Some e' →
      File.usr_of e = usr → File.usr_of e' = usr → i = j)).
Proof.
  split; [|split; [|split; [|split; [|split]]]].
  - intros id. apply ToId_known.
  - intros Hu Hk. destruct (ToId_fresh k f usr Hu Hk) as [f' Hto].
    destruct (ToId_fresh_inv _ _ _ _ _ Hu Hto)
      as (_ & (e & Hrec & Hid & Husr) & Hmap & Hdb & Hother).
    exists e, f'. cbv zeta. eauto 10.
  - intros Hu Hk ->. now apply ToId_fresh_empty.
  - apply interned_new.
  - intros k' id f' Hin Hto. eapply interned_ToId; eassumption.
  - intros [Hfwd Hbwd].
    split; [intros id; apply Hfwd|].
    intros i j e e' Hi Hj He He'.
    destruct (Hbwd i e Hi) as [_ Hmi]. destruct (Hbwd j e' Hj) as [_ Hmj].
    rewrite He in Hmi. rewrite He' in Hmj. rewrite Hmi in Hmj.
    injection Hmj. lia.
Qed.

(** ** Usage lists *)

Section UsageFacts.

Import Usage.

Lemma IsEqualTo_refl a : Loc.IsEqualTo a a = true.
Proof. apply Z.eqb_refl. Qed.

Lemma IsEqualTo_sym a b : Loc.IsEqualTo a b = Loc.IsEqualTo b a.
Proof. apply Z.eqb_sym. Qed.

Lemma IsEqualTo_rewrite_l a b c :
  Loc.IsEqualTo a b = true → Loc.IsEqualTo a c = Loc.IsEqualTo b c.
Proof. unfold Loc.IsEqualTo. intros H%Z.eqb_eq. now rewrite H. Qed.

Lemma IsEqualTo_rewrite_r a b c :
  Loc.IsEqualTo a b = true → Loc.IsEqualTo c a = Loc.IsEqualTo c b.
Proof. unfold Loc.IsEqualTo. intros H%Z.eqb_eq. now rewrite H. Qed.

(** Promotion sets the bit and nothing else. *)
Lemma WithInteresting_true u :
  uint64 u →
  uint64 (Loc.WithInteresting u true) ∧
  Loc.IsEqualTo (Loc.WithInteresting u true) u = true ∧
  Loc.interesting (Loc.WithInteresting u true) = 1.
Proof.
  intros Hu. unfold Loc.WithInteresting. cbn [Z.b2z].
  assert (uint64 (BitField.store 0 1 u 1)) as Hw by (apply store_uint64; lia).
  assert (0 <= 1 <= BitField.Maximum 1) by (rewrite Maximum_1; lia).
  split; [done|]. split.
  - apply IsEqualTo_fields; [done..|].
    unfold Loc.file_id, Loc.line, Loc.column.
    rewrite !get_store_other by lia. done.
  - unfold Loc.interesting. apply get_store_same; lia.
Qed.

Lemma kept_same loc u : uint64 u → kept loc u u.
Proof.
  intros Hu. split; [done|]. split; [apply IsEqualTo_refl|]. split; auto.
Qed.

Lemma find_and_promote_None uses loc :
  find_and_promote uses loc = None →
  ∀ u, u ∈ uses → Loc.IsEqualTo u loc = false.
Proof.
  induction uses as [|x uses IH]; cbn [find_and_promote].
  - intros _ u Hu. inversion Hu.
  - destruct (Loc.IsEqualTo x loc) eqn:Hx.
    { destruct (_ && _); discriminate. }
    destruct (find_and_promote uses loc); [discriminate|].
    intros _ u [->|Hu]%elem_of_cons; auto.
Qed.

Lemma find_and_promote_Some uses loc uses' :
  Forall uint64 uses → uint64 loc →
  find_and_promote uses loc = Some uses' →
  Forall2 (kept loc) uses uses' ∧
  ∃ i u u', uses !! i = Some u ∧ uses' !! i = Some u' ∧
    Loc.IsEqualTo u loc = true ∧
    (Loc.interesting loc = 1 → Loc.interesting u' = 1).
Proof.
  intros Hall Hloc. revert uses'.
  induction Hall as [|x uses Hx Hall IH]; intros uses';
    cbn [find_and_promote]; [discriminate|].
  assert (Forall2 (kept loc) uses uses) as Hrest.
  { apply Forall_Forall2_diag. eapply Forall_impl; [exact Hall|].
    intros u Hu. now apply kept_same. }
  destruct (Loc.IsEqualTo x loc) eqn:Hxl.
  - destruct (WithInteresting_true x Hx) as (Hw & Heq & Hint).
    pose proof (fields_range x) as (Hxi & _).
    pose proof (fields_range loc) as (Hli & _).
    destruct (Z.eqb_spec (Loc.interesting x) 0) as [Hx0|Hx0];
      destruct (Z.eqb_spec (Loc.interesting loc) 0) as [Hl0|Hl0];
      cbn [andb negb]; intros [= <-].
    all: split;
      [constructor; [|exact Hrest]|
       eexists 0%nat, x, _; repeat split; try reflexivity; try done].
    all: try (apply kept_same; done).
    all: try lia.
    split; [done|]. split; [done|]. split; [done|]. congruence.
  - destruct (find_and_promote uses loc) as [rest|]; [|discriminate].
    cbn. intros [= <-].
    destruct (IH rest eq_refl) as (Hk & i & u & u' & Hu & Hu' & Hm & Hp).
    split; [constructor; [now apply kept_same|exact Hk]|].
    exists (S i), u, u'. auto.
Qed.

Lemma uses_Entity_AddUsage e call :
  uses (Entity_AddUsage e call) = AddUsage (uses e) call.1 call.2.
Proof. destruct e; reflexivity. Qed.

Lemma distinct_same_place (uses : list Location) loc i j u v :
  distinct uses → uses !! i = Some u → uses !! j = Some v →
  Loc.IsEqualTo u loc = true → Loc.IsEqualTo v loc = true → i = j.
Proof.
  intros Hd Hi Hj Hu Hv. destruct (decide (i = j)) as [|Hne]; [done|].
  pose proof (Hd i j u v Hne Hi Hj) as Hf.
  rewrite (IsEqualTo_rewrite_l _ _ _ Hu), IsEqualTo_sym in Hf. congruence.
Qed.

(** One call: the list stays free of duplicates, every position keeps its
    place, and the position that matches [loc] takes its interest. *)
Lemma AddUsage_step (uses : list Location) loc ins :
  Forall uint64 uses → uint64 loc → distinct uses →
  Forall uint64 (AddUsage uses loc ins) ∧
  distinct (AddUsage uses loc ins) ∧
  ∀ i u, uses !! i = Some u →
    ∃ u', AddUsage uses loc ins !! i = Some u' ∧
      Loc.IsEqualTo u' u = true ∧
      (Loc.interesting u = 1 → Loc.interesting u' = 1) ∧
      (Loc.IsEqualTo u loc = true →
       length (AddUsage uses loc ins) = length uses ∧
       (Loc.interesting loc = 1 → Loc.interesting u' = 1)).
Proof.
  intros Hall Hloc Hd. unfold AddUsage.
  destruct (find_and_promote uses loc) as [uses'|] eqn:Hfp.
  - destruct (find_and_promote_Some _ _ _ Hall Hloc Hfp)
      as (Hk & i0 & u0 & u0' & Hi0 & Hi0' & Hm0 & Hp0).
    split; [|split].
    + apply Forall_forall. intros u' Hu'.
      apply list_elem_of_lookup in Hu' as [i Hi].
      destruct (Forall2_lookup_r _ _ _ _ _ Hk Hi) as (u & _ & Hku).
      apply Hku.
    + intros i j a' b' Hne Ha' Hb'.
      destruct (Forall2_lookup_r _ _ _ _ _ Hk Ha') as (a & Ha & Hka).
      destruct (Forall2_lookup_r _ _ _ _ _ Hk Hb') as (b & Hb & Hkb).
      destruct Hka as (_ & Hea & _). destruct Hkb as (_ & Heb & _).
      rewrite (IsEqualTo_rewrite_l _ _ _ Hea), (IsEqualTo_rewrite_r _ _ _ Heb).
      eapply Hd; eassumption.
    + intros i u Hi.
      destruct (Forall2_lookup_l _ _ _ _ _ Hk Hi) as (u' & Hi' & Hku).
      destruct Hku as (_ & He & Hmono & _).
      exists u'. split; [done|]. split; [done|]. split; [done|].
      intros Hm. split; [symmetry; eapply Forall2_length, Hk|].
      intros Hl.
      assert (i = i0) as -> by (eapply distinct_same_place; eassumption).
      rewrite Hi0' in Hi'. injection Hi' as <-. auto.
  - pose proof (find_and_promote_None _ _ Hfp) as Hnone.
    assert (∀ i u, uses !! i = Some u → Loc.IsEqualTo u loc = false) as Hno.
    { intros i u Hi. apply Hnone. eapply list_elem_of_lookup_2, Hi. }
    destruct ins.
    + split; [|split].
      * apply Forall_app. split; [done|]. now constructor.
      * intros i j a b Hne Ha Hb.
        apply lookup_app_Some in Ha as [Ha|[Hia Ha]];
          apply lookup_app_Some in Hb as [Hb|[Hib Hb]].
        -- eapply Hd; eassumption.
        -- apply list_lookup_singleton_Some in Hb as [_ <-]. eauto.
        -- apply list_lookup_singleton_Some in Ha as [_ <-].
           rewrite IsEqualTo_sym. eauto.
        -- apply list_lookup_singleton_Some in Ha as [? _].
           apply list_lookup_singleton_Some in Hb as [? _]. lia.
      * intros i u Hi. exists u. rewrite lookup_app_l
          by (now apply lookup_lt_Some in Hi).
        split; [done|]. split; [apply IsEqualTo_refl|]. split; [auto|].
        intros Hl. rewrite (Hno i u Hi) in Hl. discriminate.
    + split; [done|]. split; [done|].
      intros i u Hi. exists u.
      split; [done|]. split; [apply IsEqualTo_refl|]. split; [auto|].
      intros Hl. rewrite (Hno i u Hi) in Hl. discriminate.
Qed.

(** Any number of calls. *)
Lemma AddUsage_run calls : ∀ e,
  Forall uint64 (uses e) → distinct (uses e) →
  Forall (λ call, uint64 call.1) calls →
  Forall uint64 (uses (fold_left Entity_AddUsage calls e)) ∧
  distinct (uses (fold_left Entity_AddUsage calls e)) ∧
  ∀ i u, uses e !! i = Some u →
    ∃ u', uses (fold_left Entity_AddUsage calls e) !! i = Some u' ∧
      Loc.IsEqualTo u' u = true ∧
      (Loc.interesting u = 1 → Loc.interesting u' = 1).
Proof.
  induction calls as [|[loc ins] calls IH]; intros e Hall Hd Hcalls.
  { cbn [fold_left]. split; [done|]. split; [done|].
    intros i u Hi. exists u. auto using IsEqualTo_refl. }
  apply Forall_cons in Hcalls as [Hloc Hcalls]. cbn [fst] in Hloc.
  destruct (AddUsage_step (uses e) loc ins Hall Hloc Hd)
    as (Hall1 & Hd1 & Hstep).
  cbn [fold_left]. specialize (IH (Entity_AddUsage e (loc, ins))).
  rewrite uses_Entity_AddUsage in IH. cbn [fst snd] in IH.
  destruct (IH Hall1 Hd1 Hcalls) as (Hall2 & Hd2 & Hrun).
  split; [done|]. split; [done|].
  intros i u Hi. destruct (Hstep i u Hi) as (u1 & Hi1 & He1 & Hm1 & _).
  destruct (Hrun i u1 Hi1) as (u2 & Hi2 & He2 & Hm2).
  exists u2. split; [done|]. split; [|auto].
  now rewrite (IsEqualTo_rewrite_l _ _ _ He2).
Qed.

(** A search that finds a match rewrites the first matching place and
    nothing else. *)
Lemma find_and_promote_insert (uses : list Location) loc uses' :
  find_and_promote uses loc = Some uses' →
  ∃ i u, uses !! i = Some u ∧ Loc.IsEqualTo u loc = true ∧
    uses' = <[i := promoted loc u]> uses.
Proof.
  revert uses'. induction uses as [|x uses IH]; intros uses';
    cbn [find_and_promote]; [discriminate|].
  destruct (Loc.IsEqualTo x loc) eqn:Hx.
  - intros Hsome. exists 0%nat, x. split; [done|]. split; [done|].
    unfold promoted. cbn [insert list_insert].
    destruct (_ && _); congruence.
  - destruct (find_and_promote uses loc) as [rest|]; [|discriminate].
    cbn. intros [= <-].
    destruct (IH rest eq_refl) as (i & u & Hi & Hu & ->).
    exists (S i), u. auto.
Qed.

Lemma find_and_promote_found (uses : list Location) loc u :
  u ∈ uses → Loc.IsEqualTo u loc = true →
  is_Some (find_and_promote uses loc).
Proof.
  intros Hin Hu. destruct (find_and_promote uses loc) eqn:Hfp; [eauto|].
  rewrite (find_and_promote_None _ _ Hfp u Hin) in Hu. discriminate.
Qed.

(** A call with a location that is present rewrites its place. *)
Lemma AddUsage_present (uses : list Location) loc ins i u :
  distinct uses → uses !! i = Some u → Loc.IsEqualTo u loc = true →
  AddUsage uses loc ins = <[i := promoted loc u]> uses.
Proof.
  intros Hd Hi Hu. unfold AddUsage.
  destruct (find_and_promote_found uses loc u) as [uses' Hfp];
    [eapply list_elem_of_lookup_2, Hi | exact Hu |].
  rewrite Hfp.
  destruct (find_and_promote_insert _ _ _ Hfp) as (i0 & u0 & Hi0 & Hu0 & ->).
  assert (i = i0) as <- by (eapply distinct_same_place; eassumption).
  congruence.
Qed.

(** A call with a location that is not present appends it, or does
    nothing. *)
Lemma AddUsage_absent (uses : list Location) loc ins :
  (∀ u, u ∈ uses → Loc.IsEqualTo u loc = false) →
  AddUsage uses loc ins = if ins then uses ++ [loc] else uses.
Proof.
  intros Hno. unfold AddUsage.
  destruct (find_and_promote uses loc) as [uses'|] eqn:Hfp; [|done].
  destruct (find_and_promote_insert _ _ _ Hfp) as (i & u & Hi & Hu & _).
  rewrite (Hno u) in Hu; [discriminate|].
  eapply list_elem_of_lookup_2, Hi.
Qed.

Lemma promoted_interesting loc u :
  uint64 u →
  Loc.IsEqualTo (promoted loc u) u = true ∧
  (Loc.interesting (promoted loc u) = 1 ↔
   Loc.interesting u = 1 ∨ Loc.interesting loc = 1).
Proof.
  intros Hu. unfold promoted.
  pose proof (fields_range u) as (Hui & _).
  pose proof (fields_range loc) as (Hli & _).
  destruct (WithInteresting_true u Hu) as (_ & Heq & Hint).
  destruct (Z.eqb_spec (Loc.interesting u) 0) as [Hu0|Hu0];
    destruct (Z.eqb_spec (Loc.interesting loc) 0) as [Hl0|Hl0];
    cbn [andb negb].
  - split; [apply IsEqualTo_refl|]. lia.
  - split; [exact Heq|]. rewrite Hint. lia.
  - split; [apply IsEqualTo_refl|]. lia.
  - split; [apply IsEqualTo_refl|]. lia.
Qed.

End UsageFacts.

(** C4. Take an entity of any kind with no usage yet and any sequence of
    AddUsage calls.  The usage list then holds no two locations equal
    ignoring the interesting bit.  A further call with a location already
    present rewrites that one place and nothing else: the length is as it
    was, the entry is still the same location ignoring the bit, and it is
    interesting afterwards exactly when it was before or the new location
    is.  A further call with a location not present appends it, or leaves
    the list as it is when [insert_if_not_present] is false.  So after a call
    that may insert, the location is in the list, interesting if the call
    said so.  Whatever calls follow, every entry keeps its place and its
    location, and an interesting entry stays interesting. *)
Theorem AddUsage_dedups_and_promotes (e : Usage.Entity)
    (calls more : list (Location * bool)) (loc : Location) (ins : bool) :
  Usage.uses e = [] →
  Forall (λ call, uint64 call.1) calls →
  Forall (λ call, uint64 call.1) more →
  uint64 loc →
  let e1 := fold_left Usage.Entity_AddUsage calls e in
  let e2 := Usage.Entity_AddUsage e1 (loc, ins) in
  let e3 := fold_left Usage.Entity_AddUsage more e2 in
  Usage.distinct (Usage.uses e1) ∧
  (∀ i u, Usage.uses e1 !! i = Some u → Loc.IsEqualTo u loc = true →
     length (Usage.uses e2) = length (Usage.uses e1) ∧
     ∃ u', Usage.uses e2 = <[i := u']> (Usage.uses e1) ∧
       Usage.uses e2 !! i = Some u' ∧ Loc.IsEqualTo u' u = true ∧
       (Loc.interesting u' = 1 ↔
        Loc.interesting u = 1 ∨ Loc.interesting loc = 1)) ∧
  ((∀ u, u ∈ Usage.uses e1 → Loc.IsEqualTo u loc = false) →
   Usage.uses e2 = if ins then Usage.uses e1 ++ [loc] else Usage.uses e1) ∧
  (ins = true →
   ∃ i u', Usage.uses e2 !! i = Some u' ∧ Loc.IsEqualTo u' loc = true ∧
     (Loc.interesting loc = 1 → Loc.interesting u' = 1)) ∧
  (∀ i u, Usage.uses e2 !! i = Some u →
     ∃ u', Usage.uses e3 !! i = Some u' ∧ Loc.IsEqualTo u' u = true ∧
       (Loc.interesting u = 1 → Loc.interesting u' = 1)).
Proof.
  intros Hnil Hcalls Hmore Hloc e1 e2 e3.
  assert (Forall uint64 (Usage.uses e)) as Hall0 by (rewrite Hnil; constructor).
  assert (Usage.distinct (Usage.uses e)) as Hd0.
  { rewrite Hnil. intros i j a b _ Ha. now rewrite lookup_nil in Ha. }
  destruct (AddUsage_run calls e Hall0 Hd0 Hcalls) as (Hall1 & Hd1 & _).
  fold e1 in Hall1, Hd1.
  destruct (AddUsage_step (Usage.uses e1) loc ins Hall1 Hloc Hd1)
    as (Hall2 & Hd2 & _).
  assert (Usage.uses e2 = Usage.AddUsage (Usage.uses e1) loc ins) as He2
    by apply uses_Entity_AddUsage.
  rewrite <- He2 in Hall2, Hd2.
  assert (∀ i u, Usage.uses e1 !! i = Some u → Loc.IsEqualTo u loc = true →
            Usage.uses e2 = <[i := Usage.promoted loc u]> (Usage.uses e1) ∧
            Usage.uses e2 !! i = Some (Usage.promoted loc u) ∧
            uint64 u) as Hpresent.
  { intros i u Hi Hm.
    rewrite He2, (AddUsage_present _ loc ins i u Hd1 Hi Hm).
    split; [done|]. split.
    - apply list_lookup_insert_eq. now apply lookup_lt_Some in Hi.
    - exact (Forall_lookup_1 _ _ _ _ Hall1 Hi). }
  split; [exact Hd1|]. split; [|split; [|split]].
  - intros i u Hi Hm. destruct (Hpresent i u Hi Hm) as (Heq & Hlook & Hu).
    destruct (promoted_interesting loc u Hu) as [Hsame Hbit].
    split; [rewrite Heq; apply length_insert|].
    exists (Usage.promoted loc u). auto.
  - intros Hno. rewrite He2. now apply AddUsage_absent.
  - intros ->.
    destruct (Usage.find_and_promote (Usage.uses e1) loc) as [uses'|] eqn:Hfp.
    + destruct (find_and_promote_insert _ _ _ Hfp) as (i & u & Hi & Hm & _).
      destruct (Hpresent i u Hi Hm) as (_ & Hlook & Hu).
      destruct (promoted_interesting loc u Hu) as [Hsame Hbit].
      exists i, (Usage.promoted loc u). split; [exact Hlook|]. split.
      * now rewrite (IsEqualTo_rewrite_l _ _ _ Hsame).
      * intros Hl. apply Hbit. now right.
    + exists (length (Usage.uses e1)), loc.
      rewrite He2. unfold Usage.AddUsage. rewrite Hfp.
      split; [|auto using IsEqualTo_refl].
      rewrite lookup_app_r, Nat.sub_diag by lia. reflexivity.
  - destruct (AddUsage_run more e2 Hall2 Hd2 Hmore) as (_ & _ & Hrun).
    exact Hrun.
Qed.

Lemma AddUsage_dedups_and_promotes_witness :
  let e := Usage.EVar {| var_def :=
                           {| var_id := 0; var_usr := String "v"%char EmptyString;
                              var_short_name := EmptyString;
                              var_qualified_name := EmptyString;
                              var_declaration := None; var_definition := None;
                              var_variable_type := None;
                              var_declaring_type := None |};
                         var_uses := []; var_is_system_def := false |} in
  let calls := [(6, true); (2 ^ 30, true)] in
  let e1 := fold_left Usage.Entity_AddUsage calls e in
  let e2 := Usage.Entity_AddUsage e1 (7, true) in
  Usage.uses e = [] ∧
  Forall (λ call : Location * bool, uint64 call.1) calls ∧
  uint64 7 ∧
  Usage.uses e1 = [6; 2 ^ 30] ∧
  Usage.distinct (Usage.uses e1) ∧
  length (Usage.uses e2) = length (Usage.uses e1) ∧
  ∃ u', Usage.uses e2 !! 0%nat = Some u' ∧ Loc.interesting u' = 1.
Proof.
  intros e calls e1 e2.
  assert (Forall (λ call : Location * bool, uint64 call.1) calls) as Hcalls.
  { unfold calls, uint64. repeat constructor; cbn [fst]; lia. }
  assert (uint64 7) as H7 by (unfold uint64; lia).
  split; [reflexivity|]. split; [exact Hcalls|]. split; [exact H7|].
  split; [reflexivity|].
  destruct (AddUsage_dedups_and_promotes e calls calls 7 true
              eq_refl Hcalls Hcalls H7) as (Hd & Hpresent & _).
  split; [exact Hd|].
  destruct (Hpresent 0%nat 6 eq_refl eq_refl)
    as (Hlen & u' & _ & Hlook & _ & Hbit).
  split; [exact Hlen|]. exists u'. split; [exact Hlook|].
  apply Hbit. right. reflexivity.
Defined.

(** ** [$ccls/vars] *)

Section CclsVarsFacts.

Context {Position QueryFile WorkingFile Use LsLocation : Type}.
Variable FindFile : string → option QueryFile.
Variable GetFileByFilename : QueryFile → WorkingFile.
Variable GetVar_AnyDef : SymbolRef → option QueryVarDef.
Variable Type_instances : Usr → list Usr.
Variable GetVarDeclarations : list Usr → Z → list Use.
Variable GetLsLocations : list Use → list LsLocation.

Let visit' := @visit Position Use LsLocation GetVar_AnyDef Type_instances
  GetVarDeclarations GetLsLocations.
Let declarations_of' := @declarations_of Position Use LsLocation
  Type_instances GetVarDeclarations GetLsLocations.
Let type_shown' := type_shown GetVar_AnyDef.
Let untyped_var' := untyped_var GetVar_AnyDef.

Lemma visit_untyped_var param result sym :
  untyped_var' sym → visit' param result sym = result.
Proof.
  intros [Hk [Hdef|(def & Hdef & Ht)]]; unfold visit', visit;
    rewrite Hk, Hdef; [done|]. now rewrite Ht.
Qed.

Lemma visit_type_shown param result sym :
  visit' param result sym =
  match type_shown' sym with
  | Some usr => declarations_of' param usr
  | None => result
  end.
Proof.
  unfold visit', visit, type_shown', type_shown.
  destruct (sym_kind sym); try done.
  destruct (GetVar_AnyDef sym) as [def|]; cbn; [|done].
  now destruct (def_type def =? 0).
Qed.

Lemma fold_visit param syms result :
  fold_left (visit' param) syms result =
  match last (omap type_shown' syms) with
  | Some usr => declarations_of' param usr
  | None => result
  end.
Proof.
  revert result. induction syms as [|sym syms IH]; intros result; [done|].
  cbn [fold_left]. rewrite IH, visit_type_shown.
  change (omap type_shown' (sym :: syms)) with
    (match type_shown' sym with
     | Some usr => usr :: omap type_shown' syms
     | None => omap type_shown' syms
     end).
  destruct (type_shown' sym) as [usr|]; [|done].
  destruct (omap type_shown' syms) as [|usr' l]; [done|].
  rewrite last_cons_cons.
  destruct (last (usr' :: l)) eqn:Hlast; [done|].
  now apply last_None in Hlast.
Qed.

Lemma type_shown_inv sym usr :
  type_shown' sym = Some usr →
  (sym_kind sym = KType ∧ usr = sym_usr sym) ∨
  (sym_kind sym = KVar ∧
   ∃ def, GetVar_AnyDef sym = Some def ∧ def_type def ≠ 0 ∧
          usr = def_type def).
Proof.
  unfold type_shown', type_shown. destruct (sym_kind sym); try done.
  - intros [= <-]. now left.
  - destruct (GetVar_AnyDef sym) as [def|]; cbn; [|done].
    destruct (Z.eqb_spec (def_type def) 0); [done|].
    intros [= <-]. right. eauto.
Qed.

(** C10. A variable symbol at the position that has no definition, or whose
    definition has no type, changes nothing in the reply of
    [MessageHandler::ccls_vars]: the reply is the same with the symbol and
    without it.  A reply is empty or is the declarations of the instances of
    a type that comes from a type symbol at the position, or from a variable
    symbol there whose definition records that type. *)
Theorem ccls_vars_skips_untyped_vars (param : Param Position) :
  (∀ syms1 sym syms2,
     sym_kind sym = KVar →
     (GetVar_AnyDef sym = None ∨
      ∃ def, GetVar_AnyDef sym = Some def ∧ def_type def = 0) →
     ccls_vars FindFile GetFileByFilename (λ _ _ _, syms1 ++ sym :: syms2)
       GetVar_AnyDef Type_instances GetVarDeclarations GetLsLocations param =
     ccls_vars FindFile GetFileByFilename (λ _ _ _, syms1 ++ syms2)
       GetVar_AnyDef Type_instances GetVarDeclarations GetLsLocations param) ∧
  (∀ FindSymbolsAtLocation reply,
     ccls_vars FindFile GetFileByFilename FindSymbolsAtLocation
       GetVar_AnyDef Type_instances GetVarDeclarations GetLsLocations param =
       Some reply →
     ∃ file, FindFile (textDocument_path param) = Some file ∧
       (reply = [] ∨
        ∃ sym usr,
          sym ∈ FindSymbolsAtLocation (GetFileByFilename file) file
                  (position param) ∧
          reply = GetLsLocations
                    (GetVarDeclarations (Type_instances usr) (kind param)) ∧
          ((sym_kind sym = KType ∧ usr = sym_usr sym) ∨
           (sym_kind sym = KVar ∧
            ∃ def, GetVar_AnyDef sym = Some def ∧ def_type def ≠ 0 ∧
                   usr = def_type def)))).
Proof.
  split.
  - intros syms1 sym syms2 Hk Hdef. unfold ccls_vars.
    destruct (FindFile (textDocument_path param)) as [file|]; [|done].
    cbn [mbind option_bind]. f_equal.
    rewrite !fold_left_app. cbn [fold_left]. f_equal.
    apply visit_untyped_var. now split.
  - intros FindSymbolsAtLocation reply. unfold ccls_vars.
    destruct (FindFile (textDocument_path param)) as [file|]; [|done].
    cbn [mbind option_bind]. intros [= <-]. exists file. split; [done|].
    fold visit'. rewrite fold_visit.
    destruct (last (omap type_shown' _)) as [usr|] eqn:Hlast; [|now left].
    right. apply last_Some_elem_of in Hlast.
    apply list_elem_of_omap in Hlast as (sym & Hsym & Hshown).
    exists sym, usr. split; [done|]. split; [done|].
    now apply type_shown_inv.
Qed.

End CclsVarsFacts.

(** ** More on locations *)

Section LocationMore.

Lemma new_value raw (i : bool) (f l c : Z) :
  0 <= f < 2 ^ 29 → 0 <= l < 2 ^ 20 → 0 <= c < 2 ^ 14 →
  Loc.new raw i f l c = Ok (Z.b2z i + 2 * f + 2 ^ 30 * l + 2 ^ 50 * c).
Proof.
  intros Hf Hl Hc.
  destruct (new_fits raw i f l c Hf Hl Hc)
    as (loc & -> & Hloc & Hli & Hlf & Hll & Hlc).
  f_equal. rewrite (fields_value loc Hloc). congruence.
Qed.

Lemma WithInteresting_fields_of (x : Location) (b : bool) :
  uint64 (Loc.WithInteresting x b) ∧
  Loc.interesting (Loc.WithInteresting x b) = Z.b2z b ∧
  Loc.file_id (Loc.WithInteresting x b) = Loc.file_id x ∧
  Loc.line (Loc.WithInteresting x b) = Loc.line x ∧
  Loc.column (Loc.WithInteresting x b) = Loc.column x.
Proof.
  unfold Loc.WithInteresting.
  assert (0 <= Z.b2z b <= BitField.Maximum 1)
    by (rewrite Maximum_1; destruct b; simpl; lia).
  split; [apply store_uint64; lia|].
  unfold Loc.interesting, Loc.file_id, Loc.line, Loc.column.
  rewrite (get_store_other 0 1 1 29), (get_store_other 0 1 30 20),
    (get_store_other 0 1 50 14) by lia.
  split; [apply get_store_same; lia|]. auto.
Qed.

Lemma interesting_bool (x : Location) :
  Loc.interesting x = Z.b2z (negb (Loc.interesting x =? 0)).
Proof.
  pose proof (fields_range x) as (Hi & _).
  destruct (Z.eqb_spec (Loc.interesting x) 0) as [H0|H0];
    cbn [negb Z.b2z]; lia.
Qed.

End LocationMore.

(** X1. When the arguments fit, the constructor packs them as
    [interesting + 2 file_id + 2^30 line + 2^50 column]; what the
    uninitialised word held before does not show in the result. *)
Theorem Location_new_value (raw : Z) (i : bool) (f l c : Z) :
  0 <= f < 2 ^ 29 → 0 <= l < 2 ^ 20 → 0 <= c < 2 ^ 14 →
  Loc.new raw i f l c = Ok (Z.b2z i + 2 * f + 2 ^ 30 * l + 2 ^ 50 * c) ∧
  ∀ raw', Loc.new raw' i f l c = Loc.new raw i f l c.
Proof.
  intros Hf Hl Hc. split; [now apply new_value|].
  intros raw'. now rewrite !new_value.
Qed.

Lemma Location_new_value_witness :
  (0 <= 67 < 2 ^ 29) ∧ (0 <= 345 < 2 ^ 20) ∧ (0 <= 12 < 2 ^ 14) ∧
  Loc.new 99 true 67 345 12 = Ok (1 + 2 * 67 + 2 ^ 30 * 345 + 2 ^ 50 * 12).
Proof.
  split; [lia|]. split; [lia|]. split; [lia|].
  apply (Location_new_value 99 true 67 345 12); lia.
Defined.

(** X2. Taking a Location apart and constructing it again from its four
    members gives the same Location. *)
Theorem Location_new_of_members (raw : Z) (x : Location) :
  uint64 x →
  Loc.new raw (negb (Loc.interesting x =? 0)) (Loc.file_id x) (Loc.line x)
    (Loc.column x) = Ok x.
Proof.
  intros Hx. pose proof (fields_range x) as (_ & Hf & Hl & Hc).
  rewrite new_value by lia. f_equal.
  rewrite <- interesting_bool. symmetry. now apply fields_value.
Qed.

Lemma Location_new_of_members_witness :
  uint64 13511169323040903 ∧
  Loc.new 5 (negb (Loc.interesting 13511169323040903 =? 0))
    (Loc.file_id 13511169323040903) (Loc.line 13511169323040903)
    (Loc.column 13511169323040903) = Ok 13511169323040903.
Proof.
  split; [unfold uint64; lia|].
  apply (Location_new_of_members 5 13511169323040903). unfold uint64. lia.
Defined.

(** X3. [WithInteresting b] gives a Location whose interesting member is
    [b] and whose file_id, line and column are those of the original; a
    second call replaces the first, and giving a Location the bit it already
    has returns it unchanged. *)
Theorem WithInteresting_members (x : Location) (a b : bool) :
  uint64 x →
  Loc.interesting (Loc.WithInteresting x b) = Z.b2z b ∧
  Loc.file_id (Loc.WithInteresting x b) = Loc.file_id x ∧
  Loc.line (Loc.WithInteresting x b) = Loc.line x ∧
  Loc.column (Loc.WithInteresting x b) = Loc.column x ∧
  Loc.WithInteresting (Loc.WithInteresting x a) b = Loc.WithInteresting x b ∧
  Loc.WithInteresting x (negb (Loc.interesting x =? 0)) = x.
Proof.
  intros Hx.
  destruct (WithInteresting_fields_of x b) as (Hu & Hi & Hf & Hl & Hc).
  repeat (split; [assumption|]). split.
  - destruct (WithInteresting_fields_of x a) as (Hua & _ & Hfa & Hla & Hca).
    destruct (WithInteresting_fields_of (Loc.WithInteresting x a) b)
      as (Hu2 & Hi2 & Hf2 & Hl2 & Hc2).
    apply fields_inj; congruence.
  - destruct (WithInteresting_fields_of x (negb (Loc.interesting x =? 0)))
      as (Hu' & Hi' & Hf' & Hl' & Hc').
    apply fields_inj; try assumption. now rewrite Hi', <- interesting_bool.
Qed.

Lemma WithInteresting_members_witness :
  uint64 6 ∧ Loc.WithInteresting (Loc.WithInteresting 6 false) true = 7.
Proof.
  split; [unfold uint64; lia|].
  pose proof (WithInteresting_members 6 false true
                ltac:(unfold uint64; lia)) as (_ & _ & _ & _ & H & _).
  rewrite H. reflexivity.
Defined.

(** X4. Two Locations that [IsEqualTo] each other and have the same
    interesting bit are the same value; and [IsEqualTo] holds exactly when
    the two become the same value once both are marked interesting. *)
Theorem IsEqualTo_up_to_bit (a b : Location) :
  uint64 a → uint64 b →
  (Loc.IsEqualTo a b = true ∧ Loc.interesting a = Loc.interesting b ↔
   a = b) ∧
  (Loc.IsEqualTo a b = true ↔
   Loc.WithInteresting a true = Loc.WithInteresting b true).
Proof.
  intros Ha Hb. split.
  - split.
    + intros [Heq Hi]. apply IsEqualTo_fields in Heq as (Hf & Hl & Hc);
        [|done..]. now apply fields_inj.
    + intros ->. split; [apply Z.eqb_refl|done].
  - destruct (WithInteresting_fields_of a true) as (Hua & Hia & Hfa & Hla & Hca).
    destruct (WithInteresting_fields_of b true) as (Hub & Hib & Hfb & Hlb & Hcb).
    rewrite IsEqualTo_fields by done. split.
    + intros (Hf & Hl & Hc). apply fields_inj; congruence.
    + intros Heq. rewrite <- Hfa, <- Hla, <- Hca, Heq. auto.
Qed.

Lemma IsEqualTo_up_to_bit_witness :
  uint64 6 ∧ uint64 7 ∧
  (Loc.IsEqualTo 6 7 = true ↔
   Loc.WithInteresting 6 true = Loc.WithInteresting 7 true).
Proof.
  split; [unfold uint64; lia|]. split; [unfold uint64; lia|].
  apply (IsEqualTo_up_to_bit 6 7); unfold uint64; lia.
Defined.

(** ** More on the textual form *)

Lemma ToString_reads_back (x : Location) :
  uint64 x → Loc.from_string (Loc.ToString x) = Some x.
Proof.
  intros Hx. rewrite ToString_eq. unfold Loc.from_string.
  pose proof (fields_range x) as (Hi & Hf & Hl & Hc).
  set (tail := Loc.to_string (Loc.file_id x) +:+ String ":"%char
         (Loc.to_string (Loc.line x) +:+ String ":"%char
            (Loc.to_string (Loc.column x)))).
  assert (∃ star : bool,
    Loc.read_star
      ((if Loc.interesting x =? 0 then EmptyString
        else String "*"%char EmptyString) +:+ tail) = (star, tail) ∧
    Z.b2z star = Loc.interesting x) as (star & -> & Hstar).
  { destruct (Z.eqb_spec (Loc.interesting x) 0) as [H0|H0].
    - exists false. rewrite append_nil. unfold tail.
      rewrite read_star_to_string. split; [reflexivity|].
      rewrite H0. reflexivity.
    - exists true. rewrite append_cons, append_nil. split; [reflexivity|].
      cbn [Z.b2z]. lia. }
  unfold tail. cbv beta iota.
  rewrite read_number_to_string by first [lia | exact eq_refl].
  cbn [mbind option_bind Loc.expect Ascii.eqb Bool.eqb].
  rewrite read_number_to_string by first [lia | exact eq_refl].
  cbn [mbind option_bind Loc.expect Ascii.eqb Bool.eqb].
  rewrite <- (append_nil_r (Loc.to_string (Loc.column x))) at 1.
  rewrite read_number_to_string by first [lia | exact I].
  cbn [mbind option_bind].
  destruct (new_fits 0 star (Loc.file_id x) (Loc.line x) (Loc.column x))
    as (loc & -> & Hloc & Hli & Hlf & Hll & Hlc); [lia..|].
  f_equal. apply fields_inj; congruence.
Qed.

(** X5. [ToString] tells Locations apart: two Locations with the same text
    are the same Location, interesting bit included. *)
Theorem ToString_injective (x y : Location) :
  uint64 x → uint64 y → Loc.ToString x = Loc.ToString y → x = y.
Proof.
  intros Hx Hy Heq.
  pose proof (ToString_reads_back x Hx) as Hrx.
  rewrite Heq, (ToString_reads_back y Hy) in Hrx. congruence.
Qed.

Lemma ToString_injective_witness :
  uint64 6 ∧ Loc.ToString 6 = Loc.ToString (2 * 3) ∧ 6 = 2 * 3.
Proof.
  split; [unfold uint64; lia|]. split; [reflexivity|].
  apply (ToString_injective 6 (2 * 3));
    [unfold uint64; lia | unfold uint64; lia | reflexivity].
Defined.

(** ** More on the file table *)

Section FileDbMore.

Lemma Resolve_keeps db stack cx i :
  FileDb.table_ok db →
  (∀ path id, file_path_to_file_id db !! path = Some id →
     file_path_to_file_id (FileDb.Resolve db stack cx i).1 !! path = Some id) ∧
  (∀ id path, file_id_to_file_path db !! id = Some path →
     file_id_to_file_path (FileDb.Resolve db stack cx i).1 !! id = Some path) ∧
  (size (file_path_to_file_id db) ≤
     size (file_path_to_file_id (FileDb.Resolve db stack cx i).1) ≤
     S (size (file_path_to_file_id db)))%nat.
Proof.
  intros (H0 & Hbij & Hran).
  destruct (spelling_file cx) as [p|] eqn:Hf.
  2: { rewrite Resolve_db_null by assumption. cbn [fst]. auto with lia. }
  destruct (file_path_to_file_id db !! p) as [id0|] eqn:Hp.
  { erewrite Resolve_db_known by eassumption. cbn [fst]. auto with lia. }
  erewrite Resolve_db_fresh by eassumption.
  cbn [fst file_path_to_file_id file_id_to_file_path].
  split; [|split].
  - intros path id Hpath. rewrite lookup_insert_ne; [done|]. congruence.
  - intros id path Hid. rewrite lookup_insert_ne; [done|].
    intros <-. assert (is_Some (file_id_to_file_path db !!
      Z.of_nat (size (file_path_to_file_id db)))) as Hs by eauto.
    apply Hran in Hs. lia.
  - rewrite map_size_insert_None by done. lia.
Qed.

Lemma run_keeps calls : ∀ db,
  FileDb.table_ok db →
  (∀ path id, file_path_to_file_id db !! path = Some id →
     file_path_to_file_id (FileDb.run db calls) !! path = Some id) ∧
  (∀ id path, file_id_to_file_path db !! id = Some path →
     file_id_to_file_path (FileDb.run db calls) !! id = Some path) ∧
  (size (file_path_to_file_id db) ≤
     size (file_path_to_file_id (FileDb.run db calls)) ≤
     size (file_path_to_file_id db) + length calls)%nat.
Proof.
  induction calls as [|[[stack cx] i] calls IH]; intros db Hok.
  { cbn [FileDb.run length]. auto with lia. }
  cbn [FileDb.run length].
  destruct (Resolve_keeps db stack cx i Hok) as (Hp & Hi & Hs).
  destruct (IH _ (table_ok_Resolve db stack cx i Hok)) as (Hp' & Hi' & Hs').
  split; [auto|]. split; [auto|]. lia.
Qed.

(** The id [Resolve] passes to the constructor for a file. *)
Lemma Resolve_file db stack cx i path :
  spelling_file cx = Some path →
  ∃ id,
    file_path_to_file_id (FileDb.Resolve db stack cx i).1 !! path = Some id ∧
    id = default (Z.of_nat (size (file_path_to_file_id db)))
           (file_path_to_file_id db !! path) ∧
    (FileDb.Resolve db stack cx i).2 =
      Loc.new (uninit_location stack) i id
        (spelling_line cx) (spelling_column cx).
Proof.
  intros Hf. destruct (file_path_to_file_id db !! path) as [id|] eqn:Hp.
  - erewrite Resolve_db_known by eassumption. exists id. cbn. auto.
  - erewrite Resolve_db_fresh by eassumption. eexists. cbn.
    split; [apply lookup_insert_eq|]. auto.
Qed.

(** The constructor on arguments of its C++ types: it succeeds when they
    fit, with the members equal to the arguments, and fails otherwise. *)
Lemma new_cases raw (i : bool) (f l c : Z) :
  int64 f → uint32 l → uint32 c →
  (0 <= f < 2 ^ 29 ∧ l < 2 ^ 20 ∧ c < 2 ^ 14 ∧
   ∃ loc, Loc.new raw i f l c = Ok loc ∧ Loc.interesting loc = Z.b2z i ∧
     Loc.file_id loc = f ∧ Loc.line loc = l ∧ Loc.column loc = c) ∨
  (¬ (0 <= f < 2 ^ 29 ∧ l < 2 ^ 20 ∧ c < 2 ^ 14) ∧
   Loc.new raw i f l c = Abort CapacityExceeded).
Proof.
  unfold int64, uint32. intros Hf Hl Hc.
  destruct (decide (0 <= f < 2 ^ 29 ∧ l < 2 ^ 20 ∧ c < 2 ^ 14))
    as [(Hf' & Hl' & Hc')|Hout].
  - left. destruct (new_fits raw i f l c) as (loc & Hnew & _ & Hfields);
      [lia..|]. repeat (split; [assumption|]). eauto.
  - right. split; [exact Hout|].
    unfold Loc.new. rewrite set_interesting_bool. simpl.
    unfold Loc.set_file_id, Loc.set_line, Loc.set_column, to_uint64.
    rewrite (Z.mod_small l), (Z.mod_small c) by lia.
    destruct (Z.lt_ge_cases f 0).
    { rewrite assign_Abort; [reflexivity|].
      rewrite Maximum_29.
      replace (f mod 2 ^ 64) with (f + 2 ^ 64); [lia|].
      apply Z.mod_unique with (q := -1); lia. }
    rewrite (Z.mod_small f) by lia.
    destruct (Z.lt_ge_cases f (2 ^ 29)).
    2: { rewrite assign_Abort; [reflexivity|rewrite Maximum_29; lia]. }
    rewrite assign_Ok by (rewrite Maximum_29; lia). simpl.
    destruct (Z.lt_ge_cases l (2 ^ 20)).
    2: { rewrite assign_Abort; [reflexivity|rewrite Maximum_20; lia]. }
    rewrite assign_Ok by (rewrite Maximum_20; lia). simpl.
    rewrite assign_Abort; [reflexivity|rewrite Maximum_14; lia].
Qed.

End FileDbMore.

(** X6. [Resolve] only ever adds to the table: starting from any table
    built from the constructor, whatever calls follow, a path keeps the id it
    has and an id keeps its path, and the table grows by at most one entry
    per call. *)
Theorem Resolve_never_rebinds
    (before calls : list (Uninitialised * CXSourceLocation * bool)) :
  let db := FileDb.run FileDb.new before in
  let db' := FileDb.run db calls in
  (∀ path id, file_path_to_file_id db !! path = Some id →
     file_path_to_file_id db' !! path = Some id) ∧
  (∀ id path, file_id_to_file_path db !! id = Some path →
     file_id_to_file_path db' !! id = Some path) ∧
  (size (file_path_to_file_id db) ≤ size (file_path_to_file_id db') ≤
     size (file_path_to_file_id db) + length calls)%nat.
Proof.
  intros db db'. apply run_keeps. apply table_ok_run, table_ok_new.
Qed.

(** X7. Resolving two locations of the same file, one call after the other,
    gives both Locations the same file id, and the second call leaves the
    table as the first one left it. *)
Theorem Resolve_same_file_twice (db : IndexedFileDb)
    (stack stack' : Uninitialised) (path : string)
    (line column line' column' : Z) (i i' : bool) :
  let first := FileDb.Resolve db stack
    {| spelling_file := Some path; spelling_line := line;
       spelling_column := column |} i in
  ∃ id,
    file_path_to_file_id first.1 !! path = Some id ∧
    first.2 = Loc.new (uninit_location stack) i id line column ∧
    FileDb.Resolve first.1 stack'
      {| spelling_file := Some path; spelling_line := line';
         spelling_column := column' |} i' =
    (first.1, Loc.new (uninit_location stack') i' id line' column').
Proof.
  intros first.
  destruct (Resolve_file db stack
    {| spelling_file := Some path; spelling_line := line;
       spelling_column := column |} i path eq_refl) as (id & Hid & _ & Hloc).
  exists id. split; [exact Hid|]. split; [exact Hloc|].
  now erewrite Resolve_db_known.
Qed.

(** X8. In a table built from the constructor and smaller than 2^63, when
    [Resolve] returns a Location for a file, the Location's file id is bound
    to the file's path in the table after the call, in both maps, and its
    line, column and interesting members are the ones resolved. *)
Theorem Resolve_file_id_maps_back
    (calls : list (Uninitialised * CXSourceLocation * bool))
    (stack : Uninitialised) (path : string) (line column : Z) (i : bool)
    (loc : Location) :
  let db := FileDb.run FileDb.new calls in
  let result := FileDb.Resolve db stack
    {| spelling_file := Some path; spelling_line := line;
       spelling_column := column |} i in
  uint32 line → uint32 column →
  Z.of_nat (size (file_path_to_file_id db)) < 2 ^ 63 →
  result.2 = Ok loc →
  file_id_to_file_path result.1 !! Loc.file_id loc = Some path ∧
  file_path_to_file_id result.1 !! path = Some (Loc.file_id loc) ∧
  Loc.line loc = line ∧ Loc.column loc = column ∧
  Loc.interesting loc = Z.b2z i.
Proof.
  intros db result Hline Hcol Hsize Hres.
  assert (FileDb.table_ok db) as Hok by apply table_ok_run, table_ok_new.
  destruct (Resolve_file db stack
    {| spelling_file := Some path; spelling_line := line;
       spelling_column := column |} i path eq_refl)
    as (id & Hid & Hdef & Hloc).
  fold result in Hid, Hloc. cbn [spelling_line spelling_column] in Hloc.
  assert (int64 id) as Hint.
  { destruct Hok as (_ & Hbij & Hran). unfold int64.
    destruct (file_path_to_file_id db !! path) as [id0|] eqn:Hp;
      cbv [default from_option Datatypes.id] in Hdef; subst id; [|lia].
    assert (0 <= id0 < Z.of_nat (size (file_path_to_file_id db))); [|lia].
    apply Hran. exists path. now apply Hbij. }
  destruct (new_cases (uninit_location stack) i id line column Hint Hline Hcol)
    as [(_ & _ & _ & loc0 & Hnew & Hi & Hf & Hl & Hc)|[_ Habort]];
    rewrite <- Hloc, Hres in *; [|discriminate].
  injection Hnew as <-.
  assert (FileDb.table_ok result.1) as (_ & Hbij' & _)
    by apply table_ok_Resolve, Hok.
  rewrite Hf. split; [now apply Hbij'|]. auto.
Qed.

Lemma Resolve_file_id_maps_back_witness :
  let result := FileDb.Resolve FileDb.new
    {| uninit_file_id := 0; uninit_location := 0 |}
    {| spelling_file := Some (String "a"%char EmptyString);
       spelling_line := 3; spelling_column := 4 |} true in
  let loc := 1 + 2 * 1 + 2 ^ 30 * 3 + 2 ^ 50 * 4 in
  uint32 3 ∧ uint32 4 ∧ result.2 = Ok loc ∧
  file_id_to_file_path result.1 !! Loc.file_id loc =
    Some (String "a"%char EmptyString).
Proof.
  intros result loc.
  assert (uint32 3) as H3 by (unfold uint32; lia).
  assert (uint32 4) as H4 by (unfold uint32; lia).
  assert (result.2 = Ok loc) as Hres by reflexivity.
  split; [exact H3|]. split; [exact H4|]. split; [exact Hres|].
  refine (proj1 (Resolve_file_id_maps_back []
    {| uninit_file_id := 0; uninit_location := 0 |}
    (String "a"%char EmptyString) 3 4 true loc H3 H4 _ Hres)).
  vm_compute. reflexivity.
Defined.

(** X9. For a file, [Resolve] returns a Location exactly when the file's id
    (the one in the table, or the table's size for a new path) fits 29 bits,
    the line 20 and the column 14; in every other case it fails with
    CapacityExceeded. *)
Theorem Resolve_succeeds_iff_fits (db : IndexedFileDb)
    (stack : Uninitialised) (path : string) (line column : Z) (i : bool) :
  let id := default (Z.of_nat (size (file_path_to_file_id db)))
              (file_path_to_file_id db !! path) in
  let result := FileDb.Resolve db stack
    {| spelling_file := Some path; spelling_line := line;
       spelling_column := column |} i in
  int64 id → uint32 line → uint32 column →
  ((∃ loc, result.2 = Ok loc) ↔
   0 <= id < 2 ^ 29 ∧ line < 2 ^ 20 ∧ column < 2 ^ 14) ∧
  (result.2 = Abort CapacityExceeded ↔
   ¬ (0 <= id < 2 ^ 29 ∧ line < 2 ^ 20 ∧ column < 2 ^ 14)).
Proof.
  intros id result Hid Hline Hcol.
  destruct (Resolve_file db stack
    {| spelling_file := Some path; spelling_line := line;
       spelling_column := column |} i path eq_refl)
    as (id' & _ & Hdef & Hloc).
  fold id in Hdef. subst id'. fold result in Hloc.
  cbn [spelling_line spelling_column] in Hloc. rewrite Hloc.
  destruct (new_cases (uninit_location stack) i id line column Hid Hline Hcol)
    as [(Hf & Hl & Hc & loc0 & Hnew & _)|[Hout Habort]].
  - rewrite Hnew. split.
    + split; [auto|]. eauto.
    + split; [discriminate|]. intros Hn. destruct Hn. auto.
  - rewrite Habort. split.
    + split; [intros [loc Hl]; discriminate|]. intros Hfit. now destruct Hout.
    + split; auto.
Qed.

Lemma Resolve_succeeds_iff_fits_witness :
  let db := {| file_path_to_file_id :=
                 <[String "a"%char EmptyString := 2 ^ 29]> ∅;
               file_id_to_file_path :=
                 <[2 ^ 29 := String "a"%char EmptyString]> ∅ |} in
  int64 (2 ^ 29) ∧ uint32 1 ∧ uint32 1 ∧
  (FileDb.Resolve db {| uninit_file_id := 0; uninit_location := 0 |}
     {| spelling_file := Some (String "a"%char EmptyString);
        spelling_line := 1; spelling_column := 1 |} false).2
  = Abort CapacityExceeded.
Proof.
  intros db.
  assert (int64 (2 ^ 29)) as Hid by (unfold int64; lia).
  assert (uint32 1) as H1 by (unfold uint32; lia).
  split; [exact Hid|]. split; [exact H1|]. split; [exact H1|].
  apply (Resolve_succeeds_iff_fits db
    {| uninit_file_id := 0; uninit_location := 0 |}
    (String "a"%char EmptyString) 1 1 false Hid H1 H1).
  change (¬ (0 <= 2 ^ 29 < 2 ^ 29 ∧ 1 < 2 ^ 20 ∧ 1 < 2 ^ 14)). lia.
Defined.

(** ** Hash combination *)

Section HashFacts.

Lemma uint64_high_bits (a i : Z) : uint64 a → 64 <= i → Z.testbit a i = false.
Proof.
  unfold uint64. intros Ha Hi. rewrite <- (Z.mod_small a (2 ^ 64)) by lia.
  apply Z.mod_pow2_bits_high. lia.
Qed.

Lemma lxor_uint64 (a b : Z) : uint64 a → uint64 b → uint64 (Z.lxor a b).
Proof.
  intros Ha Hb. unfold uint64.
  assert (Z.lxor a b = Z.lxor a b mod 2 ^ 64) as ->.
  { apply Z.bits_inj'. intros i Hi.
    destruct (Z.lt_ge_cases i 64).
    - now rewrite Z.mod_pow2_bits_low by lia.
    - rewrite Z.mod_pow2_bits_high by lia.
      now rewrite Z.lxor_spec, !uint64_high_bits by (done || lia). }
  apply Z.mod_pos_bound. lia.
Qed.

Lemma to_uint64_range (v : Z) : uint64 (to_uint64 v).
Proof. unfold uint64, to_uint64. apply Z.mod_pos_bound. lia. Qed.

Lemma step_uint64 (seed h : Z) : uint64 seed → uint64 (Hash.step seed h).
Proof.
  intros Hs. unfold Hash.step. apply lxor_uint64; [done|].
  apply to_uint64_range.
Qed.

Lemma hash_combine_uint64 hashes : ∀ seed,
  uint64 seed → uint64 (Hash.hash_combine seed hashes).
Proof.
  induction hashes as [|h hashes IH]; intros seed Hs; [done|].
  cbn [Hash.hash_combine]. apply IH. now apply step_uint64.
Qed.

Lemma hash_combine_app l1 l2 seed :
  Hash.hash_combine seed (l1 ++ l2) =
  Hash.hash_combine (Hash.hash_combine seed l1) l2.
Proof.
  revert seed. induction l1 as [|h l1 IH]; intros seed; [done|].
  cbn [app Hash.hash_combine]. apply IH.
Qed.

Lemma lxor_cancel_l (a b c : Z) : Z.lxor a b = Z.lxor a c → b = c.
Proof.
  intros H. apply (f_equal (Z.lxor a)) in H.
  now rewrite <- !Z.lxor_assoc, !Z.lxor_nilpotent, !Z.lxor_0_l in H.
Qed.

Lemma step_inj (seed h1 h2 : Z) :
  uint64 h1 → uint64 h2 → Hash.step seed h1 = Hash.step seed h2 → h1 = h2.
Proof.
  unfold uint64, Hash.step, to_uint64. intros H1 H2 Heq.
  apply lxor_cancel_l in Heq.
  set (k := 0x9e3779b9 + Z.shiftl seed 6 mod 2 ^ 64 + Z.shiftr seed 2) in *.
  replace (h1 + 0x9e3779b9 + Z.shiftl seed 6 mod 2 ^ 64 + Z.shiftr seed 2)
    with (h1 + k) in Heq by (unfold k; lia).
  replace (h2 + 0x9e3779b9 + Z.shiftl seed 6 mod 2 ^ 64 + Z.shiftr seed 2)
    with (h2 + k) in Heq by (unfold k; lia).
  clearbody k. Z.to_euclidean_division_equations. lia.
Qed.

End HashFacts.

Lemma step_onto (seed target : Z) :
  uint64 seed → uint64 target →
  ∃ h, uint64 h ∧ Hash.step seed h = target.
Proof.
  intros Hs Ht.
  set (k := 0x9e3779b9 + to_uint64 (Z.shiftl seed 6) + Z.shiftr seed 2).
  exists (to_uint64 (Z.lxor seed target - k)).
  split; [apply to_uint64_range|].
  unfold Hash.step. fold k.
  replace (to_uint64 (Z.lxor seed target - k) + 0x9e3779b9
           + to_uint64 (Z.shiftl seed 6) + Z.shiftr seed 2)
    with (to_uint64 (Z.lxor seed target - k) + k) by (unfold k; lia).
  unfold to_uint64 at 1 2. rewrite Z.add_mod_idemp_l by lia.
  replace (Z.lxor seed target - k + k) with (Z.lxor seed target) by lia.
  pose proof (lxor_uint64 seed target Hs Ht) as Hx. unfold uint64 in Hx.
  rewrite Z.mod_small by lia.
  now rewrite <- Z.lxor_assoc, Z.lxor_nilpotent, Z.lxor_0_l.
Qed.

(** X10. [hash_combine] stays within the 64 bits of [size_t], and for a
    fixed seed and fixed earlier arguments every 64-bit value is the result
    for some 64-bit hash of the last argument: the last step,
    [seed ^ (h + 0x9e3779b9 + (seed << 6) + (seed >> 2))], maps the hashes
    onto all of [size_t]. *)
Theorem hash_combine_last_onto (seed : Z) (earlier : list Z) (target : Z) :
  uint64 seed → uint64 target →
  (∀ h, uint64 (Hash.hash_combine seed (earlier ++ [h]))) ∧
  ∃ h, uint64 h ∧ Hash.hash_combine seed (earlier ++ [h]) = target.
Proof.
  intros Hs Ht. split.
  - intros h. now apply hash_combine_uint64.
  - destruct (step_onto (Hash.hash_combine seed earlier) target)
      as (h & Hh & Hstep); [now apply hash_combine_uint64|done|].
    exists h. split; [done|].
    rewrite hash_combine_app. exact Hstep.
Qed.

Lemma hash_combine_last_onto_witness :
  uint64 0 ∧ uint64 12345 ∧
  ∃ h, uint64 h ∧ Hash.MAKE_HASHABLE ([7] ++ [h]) = 12345.
Proof.
  assert (uint64 0) as H0 by (unfold uint64; lia).
  assert (uint64 12345) as Ht by (unfold uint64; lia).
  split; [exact H0|]. split; [exact Ht|].
  exact (proj2 (hash_combine_last_onto 0 [7] 12345 H0 Ht)).
Defined.

(** X11. Two argument packs that differ only in the hash of the last
    argument never combine to the same value: for a fixed seed and fixed
    earlier arguments, the result determines the last argument's hash.  So a
    [MAKE_HASHABLE] hash of keys that agree on all but the last member is
    as collision free as that member's own hash. *)
Theorem hash_combine_last_injective (seed : Z) (earlier : list Z)
    (h1 h2 : Z) :
  uint64 h1 → uint64 h2 →
  Hash.hash_combine seed (earlier ++ [h1]) =
    Hash.hash_combine seed (earlier ++ [h2]) →
  h1 = h2.
Proof.
  intros H1 H2. rewrite !hash_combine_app. cbn [Hash.hash_combine].
  now apply step_inj.
Qed.

Lemma hash_combine_last_injective_witness :
  uint64 5 ∧
  Hash.MAKE_HASHABLE ([7] ++ [5]) = Hash.MAKE_HASHABLE ([7] ++ [2 + 3]) ∧
  5 = 2 + 3.
Proof.
  split; [unfold uint64; lia|]. split; [reflexivity|].
  apply (hash_combine_last_injective 0 [7] 5 (2 + 3));
    [unfold uint64; lia | unfold uint64; lia | reflexivity].
Defined.

(** ** More on [$ccls/vars] *)

Section CclsVarsMore.

Context {Position QueryFile WorkingFile Use LsLocation : Type}.
Variable FindFile : string → option QueryFile.
Variable GetFileByFilename : QueryFile → WorkingFile.
Variable GetVar_AnyDef : SymbolRef → option QueryVarDef.
Variable Type_instances : Usr → list Usr.
Variable GetVarDeclarations : list Usr → Z → list Use.
Variable GetLsLocations : list Use → list LsLocation.

(** X12. The reply is not accumulated over the symbols at the position: each
    type symbol, and each variable symbol with a recorded type, replaces
    what was found before.  When such a symbol is followed only by symbols
    that show no type, the reply is the declarations of the instances of its
    type alone, whatever came before it. *)
Theorem ccls_vars_last_symbol_wins (param : Param Position)
    (syms1 syms2 : list SymbolRef) (sym : SymbolRef) (usr : Usr) :
  type_shown GetVar_AnyDef sym = Some usr →
  Forall (λ s, type_shown GetVar_AnyDef s = None) syms2 →
  ccls_vars FindFile GetFileByFilename (λ _ _ _, syms1 ++ sym :: syms2)
    GetVar_AnyDef Type_instances GetVarDeclarations GetLsLocations param =
  (_ ← FindFile (textDocument_path param);
   Some (GetLsLocations
           (GetVarDeclarations (Type_instances usr) (kind param)))).
Proof.
  intros Hsym Hrest. unfold ccls_vars.
  destruct (FindFile (textDocument_path param)) as [file|]; [|done].
  cbn [mbind option_bind]. f_equal.
  rewrite (fold_visit GetVar_AnyDef Type_instances GetVarDeclarations
             GetLsLocations).
  rewrite omap_app.
  change (omap (type_shown GetVar_AnyDef) (sym :: syms2)) with
    (match type_shown GetVar_AnyDef sym with
     | Some u => u :: omap (type_shown GetVar_AnyDef) syms2
     | None => omap (type_shown GetVar_AnyDef) syms2
     end).
  rewrite Hsym.
  assert (omap (type_shown GetVar_AnyDef) syms2 = []) as ->.
  { induction Hrest as [|s l Hs _ IH]; [done|].
    change (omap (type_shown GetVar_AnyDef) (s :: l)) with
      (match type_shown GetVar_AnyDef s with
       | Some u => u :: omap (type_shown GetVar_AnyDef) l
       | None => omap (type_shown GetVar_AnyDef) l
       end).
    now rewrite Hs. }
  now rewrite last_snoc.
Qed.

(** X13. A symbol at the position that is neither a type nor a variable (a
    function, a file, an invalid symbol) takes the [default] branch and
    changes nothing in the reply. *)
Theorem ccls_vars_ignores_other_kinds (param : Param Position)
    (syms1 syms2 : list SymbolRef) (sym : SymbolRef) :
  sym_kind sym ≠ KType → sym_kind sym ≠ KVar →
  ccls_vars FindFile GetFileByFilename (λ _ _ _, syms1 ++ sym :: syms2)
    GetVar_AnyDef Type_instances GetVarDeclarations GetLsLocations param =
  ccls_vars FindFile GetFileByFilename (λ _ _ _, syms1 ++ syms2)
    GetVar_AnyDef Type_instances GetVarDeclarations GetLsLocations param.
Proof.
  intros Ht Hv. unfold ccls_vars.
  destruct (FindFile (textDocument_path param)) as [file|]; [|done].
  cbn [mbind option_bind]. f_equal.
  rewrite !fold_left_app. cbn [fold_left]. f_equal.
  unfold visit. now destruct (sym_kind sym).
Qed.

End CclsVarsMore.

Lemma ccls_vars_last_symbol_wins_witness :
  let AnyDef := λ s : SymbolRef,
    if sym_usr s =? 1 then Some {| def_type := 20 |} else None in
  let var1 := {| sym_usr := 1; sym_kind := KVar |} in
  let var2 := {| sym_usr := 2; sym_kind := KVar |} in
  let type3 := {| sym_usr := 3; sym_kind := KType |} in
  type_shown AnyDef var1 = Some 20 ∧
  Forall (λ s, type_shown AnyDef s = None) [var2] ∧
  ccls_vars (λ _, Some tt) (λ _, tt) (λ _ _ _, [type3] ++ var1 :: [var2])
    AnyDef (λ usr, [usr + 1]) (λ instances k, instances) (λ uses, uses)
    {| textDocument_path := EmptyString; position := tt; kind := 7 |}
  = Some [21].
Proof.
  intros AnyDef var1 var2 type3.
  assert (type_shown AnyDef var1 = Some 20) as H1 by reflexivity.
  assert (Forall (λ s, type_shown AnyDef s = None) [var2]) as H2
    by (repeat constructor).
  split; [exact H1|]. split; [exact H2|].
  exact (ccls_vars_last_symbol_wins (λ _, Some tt) (λ _, tt) AnyDef
           (λ usr, [usr + 1]) (λ instances k, instances) (λ uses, uses)
           {| textDocument_path := EmptyString; position := tt; kind := 7 |}
           [type3] [var2] var1 20 H1 H2).
Defined.

Lemma ccls_vars_ignores_other_kinds_witness :
  let func := {| sym_usr := 9; sym_kind := KFunc |} in
  let type3 := {| sym_usr := 3; sym_kind := KType |} in
  sym_kind func ≠ KType ∧ sym_kind func ≠ KVar ∧
  ccls_vars (λ _, Some tt) (λ _, tt) (λ _ _ _, [type3] ++ func :: [])
    (λ _, None) (λ usr, [usr + 1]) (λ instances k, instances) (λ uses, uses)
    {| textDocument_path := EmptyString; position := tt; kind := 7 |}
  = Some [4].
Proof.
  intros func type3.
  assert (sym_kind func ≠ KType) as H1 by discriminate.
  assert (sym_kind func ≠ KVar) as H2 by discriminate.
  split; [exact H1|]. split; [exact H2|].
  rewrite (ccls_vars_ignores_other_kinds (λ _, Some tt) (λ _, tt)
             (λ _, None) (λ usr, [usr + 1]) (λ instances k, instances)
             (λ uses, uses)
             {| textDocument_path := EmptyString; position := tt; kind := 7 |}
             [type3] [] func H1 H2).
  reflexivity.
Defined.
